(** * ExpiringDataContainer: a shallow embedding and its properties

    The model follows the dual-structure revision of the container
    (the [.tpp] file that keeps both [pq] and [insertion_order], together
    with the header that declares [size] and [get_most_recent]).

    Conventions.
    - A [TimePoint] is the tick count of the steady clock, a 64-bit
      signed count of nanoseconds, modelled as a [Z].  The source keeps
      [fixed_duration] in milliseconds and converts it to ticks each
      time it adds it to a time point; the model keeps the converted
      tick count, [milliseconds n] for a duration of [n] milliseconds.
      The sum of a time point and a duration is a 64-bit sum: it wraps
      around ([wrap64]) when it leaves the range of the tick count.
    - Every public method runs under the container's mutex, so a method
      is one atomic state transformer.  [Clock::now()] is an explicit
      argument [now] of the methods that read the clock.  A history
      lists the calls in the order in which they held the mutex.
    - [std::priority_queue<TimedData, std::vector<TimedData>,
      std::greater<>>] is the standard library's container, not code of
      the repository.  It is an interface here ([PriorityQueue]) with the
      contract the language standard gives it; [ListPQ] is an executable
      instance, used to evaluate the methods on concrete inputs. *)

From Stdlib Require Import String ZArith List Bool Lia.
From Stdlib Require Import Permutation Sorted.
Import ListNotations.

Set Implicit Arguments.

Local Open Scope Z_scope.

(** ** Time *)

Definition TimePoint := Z.
Definition Duration := Z.

(** The value a 64-bit signed integer holds after an operation whose
    exact result is [z]. *)
Definition wrap64 (z : Z) : Z :=
  (z + 9223372036854775808) mod 18446744073709551616 - 9223372036854775808.

(** [z] is a value of a 64-bit signed integer. *)
Definition fits64 (z : Z) : bool :=
  (-9223372036854775808 <=? z) && (z <=? 9223372036854775807).

(** The tick count of [std::chrono::milliseconds(count)]: the conversion
    to the clock's nanoseconds multiplies by 1000000 in 64 bits. *)
Definition milliseconds (count : Z) : Duration :=
  wrap64 (count * 1000000).

Arguments wrap64 : simpl never.

(** ** Entries *)

Section Entry.

Variable T : Type.

(** [struct TimedData { T data; TimePoint insertion; TimePoint expiration; }] *)
Record TimedData : Type := mkTimedData {
  data : T;
  insertion : TimePoint;
  expiration : TimePoint
}.

(** [bool operator>(const TimedData& other) const
      { return expiration > other.expiration; }] *)
Definition TimedData_gt (a b : TimedData) : bool :=
  expiration b <? expiration a.

End Entry.

Arguments mkTimedData {T} _ _ _.
Arguments data {T} _.
Arguments insertion {T} _.
Arguments expiration {T} _.
Arguments TimedData_gt {T} _ _.

(** ** The priority queue interface

    [pq_elems] is the abstraction function: the entries a queue holds, as
    a list up to permutation.  With the comparison [std::greater<>] the
    top of the queue is an entry that is [operator>] no other entry, that
    is, one of least expiration.  [top()] and [pop()] on an empty queue
    are undefined in the standard; the contract says nothing about
    them and the container never calls them there. *)

Class PriorityQueue (T : Type) : Type := {
  PQ : Type;
  pq_elems : PQ -> list (TimedData T);
  pq_new : PQ;
  pq_empty : PQ -> bool;
  pq_size : PQ -> nat;
  pq_push : TimedData T -> PQ -> PQ;
  pq_top : PQ -> option (TimedData T);
  pq_pop : PQ -> PQ;

  pq_new_elems : pq_elems pq_new = [];
  pq_empty_spec : forall q,
    pq_empty q = match pq_elems q with [] => true | _ :: _ => false end;
  pq_size_spec : forall q, pq_size q = length (pq_elems q);
  pq_push_spec : forall x q,
    Permutation (pq_elems (pq_push x q)) (x :: pq_elems q);
  pq_top_spec : forall q, pq_elems q <> [] ->
    exists x, pq_top q = Some x /\ In x (pq_elems q) /\
              forall y, In y (pq_elems q) -> TimedData_gt x y = false;
  pq_pop_spec : forall q x, pq_elems q <> [] -> pq_top q = Some x ->
    Permutation (x :: pq_elems (pq_pop q)) (pq_elems q)
}.

(** ** The container *)

(** [throw std::runtime_error("No elements in the container")] *)
Inductive exception : Type :=
| runtime_error (what : string).

Section Container.

Context {T : Type} `{PriorityQueue T}.

(** The data members.  The mutex, the condition variable and the thread
    handle carry no data the methods compute with. *)
Record ExpiringDataContainer : Type := mkContainer {
  pq : PQ;
  insertion_order : list (TimedData T);
  fixed_duration : Duration;
  stop_cleanup : bool
}.

(** The constructor: [fixed_duration(duration)], the other members
    default-initialised. *)
Definition new_container (duration : Duration) : ExpiringDataContainer :=
  {| pq := pq_new;
     insertion_order := [];
     fixed_duration := duration;
     stop_cleanup := false |}.

(** [insert]: [now] is the value of [Clock::now()]; [now +
    fixed_duration] is a sum of 64-bit tick counts. *)
Definition insert (now : TimePoint) (data : T) (c : ExpiringDataContainer)
  : ExpiringDataContainer :=
  let expiration := wrap64 (now + fixed_duration c) in
  let timed_data := mkTimedData data now expiration in
  {| pq := pq_push timed_data (pq c);
     insertion_order := insertion_order c ++ [timed_data];
     fixed_duration := fixed_duration c;
     stop_cleanup := stop_cleanup c |}.

(** [insert(data)] called once at each clock value of [nows], in that
    order. *)
Definition insert_all (nows : list TimePoint) (data : T)
    (c : ExpiringDataContainer) : ExpiringDataContainer :=
  fold_left (fun c' now => insert now data c') nows c.

(** [while (!pq.empty() && pq.top().expiration <= now) pq.pop();]
    One unit of [fuel] pays for one iteration. *)
Fixpoint pop_expired (fuel : nat) (now : TimePoint) (q : PQ) : PQ :=
  match fuel with
  | O => q
  | S fuel' =>
      if pq_empty q then q
      else match pq_top q with
           | Some x =>
               if expiration x <=? now
               then pop_expired fuel' now (pq_pop q)
               else q
           | None => q
           end
  end.

(** [while (!insertion_order.empty() &&
           insertion_order.front().expiration <= now)
      insertion_order.pop_front();] *)
Fixpoint pop_front_expired (now : TimePoint) (l : list (TimedData T))
  : list (TimedData T) :=
  match l with
  | [] => []
  | x :: l' => if expiration x <=? now then pop_front_expired now l' else l
  end.

(** [remove_expired]: each iteration of the first loop pops one entry, so
    [pq.size()] iterations always suffice ([pop_expired_fuel] below). *)
Definition remove_expired (now : TimePoint) (c : ExpiringDataContainer)
  : ExpiringDataContainer :=
  {| pq := pop_expired (pq_size (pq c)) now (pq c);
     insertion_order := pop_front_expired now (insertion_order c);
     fixed_duration := fixed_duration c;
     stop_cleanup := stop_cleanup c |}.

(** The loop of [get_valid_data] over the copy [temp_pq]. *)
Fixpoint drain_valid (fuel : nat) (temp_pq : PQ) (valid_data : list T)
  : list T :=
  match fuel with
  | O => valid_data
  | S fuel' =>
      if pq_empty temp_pq then valid_data
      else match pq_top temp_pq with
           | Some x =>
               drain_valid fuel' (pq_pop temp_pq) (valid_data ++ [data x])
           | None => valid_data
           end
  end.

(** [get_valid_data]: the result and the state it leaves. *)
Definition get_valid_data (now : TimePoint) (c : ExpiringDataContainer)
  : list T * ExpiringDataContainer :=
  let c' := remove_expired now c in
  (drain_valid (pq_size (pq c')) (pq c') [], c').

(** The loop of [is_less_than_all] over the copy [temp_pq]. *)
Fixpoint scan_less_than_all (fuel : nat) (time : TimePoint) (temp_pq : PQ)
  : bool :=
  match fuel with
  | O => true
  | S fuel' =>
      if pq_empty temp_pq then true
      else match pq_top temp_pq with
           | Some x =>
               if insertion x <=? time then false
               else scan_less_than_all fuel' time (pq_pop temp_pq)
           | None => true
           end
  end.

(** [is_less_than_all] is a [const] method: it reads no clock and leaves
    the state as it is. *)
Definition is_less_than_all (time : TimePoint) (c : ExpiringDataContainer)
  : bool :=
  scan_less_than_all (pq_size (pq c)) time (pq c).

(** The loop of [get_data_exceeding] over the copy [temp_pq]. *)
Fixpoint drain_exceeding (fuel : nat) (time : TimePoint) (temp_pq : PQ)
    (exceeding_data : list T) : list T :=
  match fuel with
  | O => exceeding_data
  | S fuel' =>
      if pq_empty temp_pq then exceeding_data
      else match pq_top temp_pq with
           | Some x =>
               drain_exceeding fuel' time (pq_pop temp_pq)
                 (if time <? insertion x
                  then exceeding_data ++ [data x]
                  else exceeding_data)
           | None => exceeding_data
           end
  end.

Definition get_data_exceeding (now : TimePoint) (time : TimePoint)
    (c : ExpiringDataContainer) : list T * ExpiringDataContainer :=
  let c' := remove_expired now c in
  (drain_exceeding (pq_size (pq c')) time (pq c') [], c').

(** [size] is a [const] method. *)
Definition size (c : ExpiringDataContainer) : nat :=
  pq_size (pq c).

(** [get_most_recent] is a [const] method; [last l x] is the back of the
    deque [x :: l]. *)
Definition get_most_recent (c : ExpiringDataContainer) : exception + T :=
  match insertion_order c with
  | [] => inl (runtime_error "No elements in the container"%string)
  | x :: l => inr (data (last l x))
  end.

(** The worker's loop body after a wake-up that did not see the stop
    flag: [remove_expired(Clock::now())]. *)
Definition cleanup_step (now : TimePoint) (c : ExpiringDataContainer)
  : ExpiringDataContainer :=
  remove_expired now c.

(** *** Histories

    The calls that change the state, each with the clock value it
    captured, in the order in which they held the mutex. *)
Inductive call : Type :=
| CallInsert (now : TimePoint) (data : T)
| CallRemoveExpired (now : TimePoint)
| CallGetValidData (now : TimePoint)
| CallGetDataExceeding (now : TimePoint) (time : TimePoint).

Definition call_now (k : call) : TimePoint :=
  match k with
  | CallInsert now _ => now
  | CallRemoveExpired now => now
  | CallGetValidData now => now
  | CallGetDataExceeding now _ => now
  end.

Definition do_call (c : ExpiringDataContainer) (k : call)
  : ExpiringDataContainer :=
  match k with
  | CallInsert now v => insert now v c
  | CallRemoveExpired now => cleanup_step now c
  | CallGetValidData now => snd (get_valid_data now c)
  | CallGetDataExceeding now time => snd (get_data_exceeding now time c)
  end.

Definition run (ks : list call) (c : ExpiringDataContainer)
  : ExpiringDataContainer :=
  fold_left do_call ks c.

(** The captured clock values never decrease, starting from [t0]. *)
Fixpoint clock_monotone (t0 : TimePoint) (ks : list call) : bool :=
  match ks with
  | [] => true
  | k :: ks' => (t0 <=? call_now k) && clock_monotone (call_now k) ks'
  end.

(** No [insert] of the history computes a sum that leaves the range of
    the tick count, for a container of duration [d]. *)
Definition call_in_range (d : Duration) (k : call) : bool :=
  match k with
  | CallInsert now _ => fits64 (now + d)
  | _ => true
  end.

Definition history_in_range (d : Duration) (ks : list call) : bool :=
  forallb (call_in_range d) ks.

(** *** Vocabulary of the properties *)

(** An entry is live at [now] when its expiration is still ahead. *)
Definition live (now : TimePoint) (e : TimedData T) : bool :=
  now <? expiration e.

(** An entry was inserted strictly after [time]. *)
Definition inserted_after (time : TimePoint) (e : TimedData T) : bool :=
  time <? insertion e.

Definition expiration_le (a b : TimedData T) : Prop :=
  expiration a <= expiration b.

Definition insertion_le (a b : TimedData T) : Prop :=
  insertion a <= insertion b.

(** The entries the loops over [temp_pq] visit, in the order in which
    they come to the top. *)
Fixpoint drain_entries (fuel : nat) (temp_pq : PQ) : list (TimedData T) :=
  match fuel with
  | O => []
  | S fuel' =>
      if pq_empty temp_pq then []
      else match pq_top temp_pq with
           | Some x => x :: drain_entries fuel' (pq_pop temp_pq)
           | None => []
           end
  end.

(** The entries a query sees after its eviction pass, in the order in
    which the loop over the copy visits them. *)
Definition visited (now : TimePoint) (c : ExpiringDataContainer)
  : list (TimedData T) :=
  let c' := remove_expired now c in
  drain_entries (pq_size (pq c')) (pq c').

(** The two structures hold the same entries. *)
Definition in_sync (c : ExpiringDataContainer) : Prop :=
  Permutation (pq_elems (pq c)) (insertion_order c).

(** The state invariant of the container: the structures agree, the
    deque is in insertion order, and every entry expires one
    [fixed_duration] after its insertion. *)
Record container_inv (c : ExpiringDataContainer) : Prop := {
  inv_sync : in_sync c;
  inv_sorted : StronglySorted insertion_le (insertion_order c);
  inv_ttl : Forall (fun e => expiration e = insertion e + fixed_duration c)
              (insertion_order c)
}.

(** No insertion recorded so far is later than [t]. *)
Definition clock_bound (t : TimePoint) (c : ExpiringDataContainer) : Prop :=
  Forall (fun e => insertion e <= t) (insertion_order c).

End Container.

Arguments ExpiringDataContainer T {_}.
Arguments call T : clear implicits.

(** ** The rest of the dual-structure revision: output, the cleanup
       thread and the destructor *)

(** What [print_state] sends to [std::cout]: text, [std::endl], and the
    tick count of a time point. *)
Inductive output : Type :=
| OutText (text : string)
| OutEndl
| OutCount (ticks : Z).

Section Lifecycle.

Context {T : Type} `{PriorityQueue T}.

(** The loop of [print_state] over the copy [temp_pq].  Each iteration
    also reads the clock and computes two durations that the one
    statement left uncommented never prints. *)
Fixpoint print_entries (fuel : nat) (temp_pq : PQ) (out : list output)
  : list output :=
  match fuel with
  | O => out
  | S fuel' =>
      if pq_empty temp_pq then out
      else match pq_top temp_pq with
           | Some x =>
               print_entries fuel' (pq_pop temp_pq)
                 (out ++ [OutText ", Insertion Time: ";
                          OutCount (insertion x);
                          OutText " ms"])
           | None => out
           end
  end.

(** [print_state] is a [const] method. *)
Definition print_state (c : ExpiringDataContainer T) : list output :=
  print_entries (pq_size (pq c)) (pq c)
    [OutText "State of the data ordered by insertion times:"; OutEndl].

(** The critical section of the destructor: [stop_cleanup = true]. *)
Definition request_stop (c : ExpiringDataContainer T)
  : ExpiringDataContainer T :=
  {| pq := pq c;
     insertion_order := insertion_order c;
     fixed_duration := fixed_duration c;
     stop_cleanup := true |}.

(** A container together with its cleanup thread: [worker_running] tells
    whether [cleanup_expired_data] has not yet left its loop. *)
Record system : Type := mkSystem {
  container : ExpiringDataContainer T;
  worker_running : bool
}.

(** The constructor initialises the members and starts the thread. *)
Definition construct (duration : Duration) : system :=
  {| container := new_container duration; worker_running := true |}.

(** One iteration of the loop of [cleanup_expired_data], from the return
    of [cv.wait_for] on: [if (stop_cleanup) break;] and otherwise
    [remove_expired(Clock::now())].  The thread holds the mutex for all
    of it. *)
Definition cleanup_iteration (now : TimePoint) (s : system) : system :=
  if worker_running s then
    if stop_cleanup (container s)
    then {| container := container s; worker_running := false |}
    else {| container := cleanup_step now (container s);
            worker_running := true |}
  else s.

(** What can take the mutex: a call of another thread, a wake-up of the
    cleanup thread, the destructor. *)
Inductive event : Type :=
| EvCall (k : call T)
| EvWake (now : TimePoint)
| EvDestroy.

Definition step (s : system) (ev : event) : system :=
  match ev with
  | EvCall k =>
      {| container := do_call (container s) k;
         worker_running := worker_running s |}
  | EvWake now => cleanup_iteration now s
  | EvDestroy =>
      {| container := request_stop (container s);
         worker_running := worker_running s |}
  end.

Definition schedule (evs : list event) (s : system) : system :=
  fold_left step evs s.

(** The calls of other threads in a schedule. *)
Fixpoint calls_of (evs : list event) : list (call T) :=
  match evs with
  | [] => []
  | EvCall k :: evs' => k :: calls_of evs'
  | _ :: evs' => calls_of evs'
  end.

(** The clock values read along a schedule never decrease. *)
Fixpoint schedule_monotone (t0 : TimePoint) (evs : list event) : bool :=
  match evs with
  | [] => true
  | EvCall k :: evs' =>
      (t0 <=? call_now k) && schedule_monotone (call_now k) evs'
  | EvWake now :: evs' => (t0 <=? now) && schedule_monotone now evs'
  | EvDestroy :: evs' => schedule_monotone t0 evs'
  end.

(** No [insert] of the schedule computes a sum that leaves the range of
    the tick count, for a container of duration [d]. *)
Definition schedule_in_range (d : Duration) (evs : list event) : bool :=
  history_in_range d (calls_of evs).

(** *** More vocabulary *)

Definition insertion_lt (a b : TimedData T) : Prop :=
  insertion a < insertion b.

Definition expiration_lt (a b : TimedData T) : Prop :=
  expiration a < expiration b.

End Lifecycle.

Arguments system T {_}.
Arguments event T : clear implicits.

(** [l1] is [l2] with some elements struck out, the order kept. *)
Inductive subsequence (A : Type) : list A -> list A -> Prop :=
| subsequence_nil : subsequence [] []
| subsequence_skip (x : A) (l1 l2 : list A) :
    subsequence l1 l2 -> subsequence l1 (x :: l2)
| subsequence_keep (x : A) (l1 l2 : list A) :
    subsequence l1 l2 -> subsequence (x :: l1) (x :: l2).

(** ** The revision that keeps only the priority queue

    The other [.tpp] file of the repository, and the non-template
    variant of it that stores [int], have no [insertion_order]: the
    methods are the same statements without the deque.  The loops are
    the loops above. *)

Module HeapOnly.

Section HeapOnly.

Context {T : Type} `{PriorityQueue T}.

Record ExpiringDataContainer : Type := mkContainer {
  pq : PQ;
  fixed_duration : Duration;
  stop_cleanup : bool
}.

Definition new_container (duration : Duration) : ExpiringDataContainer :=
  {| pq := pq_new; fixed_duration := duration; stop_cleanup := false |}.

(** [pq.push({data, now, expiration});] *)
Definition insert (now : TimePoint) (data : T) (c : ExpiringDataContainer)
  : ExpiringDataContainer :=
  let expiration := wrap64 (now + fixed_duration c) in
  {| pq := pq_push (mkTimedData data now expiration) (pq c);
     fixed_duration := fixed_duration c;
     stop_cleanup := stop_cleanup c |}.

Definition remove_expired (now : TimePoint) (c : ExpiringDataContainer)
  : ExpiringDataContainer :=
  {| pq := pop_expired (pq_size (pq c)) now (pq c);
     fixed_duration := fixed_duration c;
     stop_cleanup := stop_cleanup c |}.

Definition get_valid_data (now : TimePoint) (c : ExpiringDataContainer)
  : list T * ExpiringDataContainer :=
  let c' := remove_expired now c in
  (drain_valid (pq_size (pq c')) (pq c') [], c').

Definition is_less_than_all (time : TimePoint) (c : ExpiringDataContainer)
  : bool :=
  scan_less_than_all (pq_size (pq c)) time (pq c).

Definition get_data_exceeding (now : TimePoint) (time : TimePoint)
    (c : ExpiringDataContainer) : list T * ExpiringDataContainer :=
  let c' := remove_expired now c in
  (drain_exceeding (pq_size (pq c')) time (pq c') [], c').

Definition do_call (c : ExpiringDataContainer) (k : call T)
  : ExpiringDataContainer :=
  match k with
  | CallInsert now v => insert now v c
  | CallRemoveExpired now => remove_expired now c
  | CallGetValidData now => snd (get_valid_data now c)
  | CallGetDataExceeding now time => snd (get_data_exceeding now time c)
  end.

Definition run (ks : list (call T)) (c : ExpiringDataContainer)
  : ExpiringDataContainer :=
  fold_left do_call ks c.

End HeapOnly.

Arguments ExpiringDataContainer T {_}.

End HeapOnly.

(** What the dual-structure container shares with the heap-only one. *)
Definition forget_deque {T : Type} `{PriorityQueue T}
    (c : ExpiringDataContainer T) : HeapOnly.ExpiringDataContainer T :=
  {| HeapOnly.pq := pq c;
     HeapOnly.fixed_duration := fixed_duration c;
     HeapOnly.stop_cleanup := stop_cleanup c |}.

(** ** An executable instance: an unordered vector scanned for its
       minimum *)

Module ListPQ.

Section ListPQ.

Variable T : Type.

(** The first entry of least expiration, and the rest of the list with
    that one occurrence taken out. *)
Fixpoint extract_min (l : list (TimedData T))
  : option (TimedData T * list (TimedData T)) :=
  match l with
  | [] => None
  | x :: l' =>
      match extract_min l' with
      | None => Some (x, [])
      | Some (m, r) =>
          if TimedData_gt x m then Some (m, x :: r) else Some (x, l')
      end
  end.

Definition top (l : list (TimedData T)) : option (TimedData T) :=
  option_map fst (extract_min l).

Definition pop (l : list (TimedData T)) : list (TimedData T) :=
  match extract_min l with
  | Some (_, r) => r
  | None => []
  end.

Definition push (x : TimedData T) (l : list (TimedData T)) :=
  l ++ [x].

Definition empty (l : list (TimedData T)) : bool :=
  match l with [] => true | _ :: _ => false end.

Lemma extract_min_nil (l : list (TimedData T)) :
  extract_min l = None -> l = [].
Proof.
  destruct l as [|x l]; simpl; [reflexivity|].
  destruct (extract_min l) as [[m r]|]; [|discriminate].
  destruct (TimedData_gt x m); discriminate.
Qed.

Lemma extract_min_perm (l : list (TimedData T)) m r :
  extract_min l = Some (m, r) -> Permutation (m :: r) l.
Proof.
  revert m r; induction l as [|x l IH]; simpl; intros m r H; [discriminate|].
  destruct (extract_min l) as [[m' r']|] eqn:E.
  - destruct (TimedData_gt x m'); inversion H; subst; clear H.
    + rewrite perm_swap. constructor. now apply IH.
    + reflexivity.
  - inversion H; subst. apply extract_min_nil in E. now subst.
Qed.

Lemma extract_min_least (l : list (TimedData T)) m r :
  extract_min l = Some (m, r) ->
  forall y, In y l -> TimedData_gt m y = false.
Proof.
  revert m r; induction l as [|x l IH]; simpl; intros m r H y Hy;
    [contradiction|].
  unfold TimedData_gt in *.
  destruct (extract_min l) as [[m' r']|] eqn:E.
  - specialize (IH _ _ eq_refl).
    destruct (expiration m' <? expiration x) eqn:C;
      inversion H; subst; clear H.
    + destruct Hy as [->|Hy]; [|now apply IH].
      apply Z.ltb_lt in C. apply Z.ltb_ge. lia.
    + apply Z.ltb_ge in C.
      destruct Hy as [->|Hy]; [apply Z.ltb_irrefl|].
      specialize (IH _ Hy). apply Z.ltb_ge in IH. apply Z.ltb_ge. lia.
  - inversion H; subst. apply extract_min_nil in E. subst.
    destruct Hy as [->|[]]. apply Z.ltb_irrefl.
Qed.

Lemma top_spec (l : list (TimedData T)) : l <> [] ->
  exists x, top l = Some x /\ In x l /\
            forall y, In y l -> TimedData_gt x y = false.
Proof.
  intros Hne. unfold top.
  destruct (extract_min l) as [[m r]|] eqn:E.
  - exists m. split; [reflexivity|]. split.
    + apply extract_min_perm in E.
      eapply Permutation_in; [exact E|]. now left.
    + eapply extract_min_least; eauto.
  - apply extract_min_nil in E. contradiction.
Qed.

Lemma pop_spec (l : list (TimedData T)) x : l <> [] -> top l = Some x ->
  Permutation (x :: pop l) l.
Proof.
  unfold top, pop. intros _.
  destruct (extract_min l) as [[m r]|] eqn:E; simpl; [|discriminate].
  intros H; inversion H; subst. now apply extract_min_perm.
Qed.

Lemma push_spec x (l : list (TimedData T)) :
  Permutation (push x l) (x :: l).
Proof.
  unfold push. symmetry. apply Permutation_cons_append.
Qed.

End ListPQ.

#[export] Instance list_pq (T : Type) : PriorityQueue T := {|
  PQ := list (TimedData T);
  pq_elems := fun l => l;
  pq_new := [];
  pq_empty := @empty T;
  pq_size := @length (TimedData T);
  pq_push := @push T;
  pq_top := @top T;
  pq_pop := @pop T;
  pq_new_elems := eq_refl;
  pq_empty_spec := fun _ => eq_refl;
  pq_size_spec := fun _ => eq_refl;
  pq_push_spec := @push_spec T;
  pq_top_spec := @top_spec T;
  pq_pop_spec := @pop_spec T
|}.

End ListPQ.

(** ** Concrete containers of integers *)

Definition ZContainer : Type := @ExpiringDataContainer Z (ListPQ.list_pq Z).

(** A container with a 10-tick duration: two inserts, a query, a third
    insert.  It holds the entries (11, 0, 10), (22, 3, 13), (33, 6, 16). *)
Definition sample_history : list (call Z) :=
  [CallInsert 0 11; CallInsert 3 22; CallGetValidData 5; CallInsert 6 33].

Definition sample_container : ZContainer :=
  run sample_history (new_container 10).

(** One insert at tick 0 with a 10-tick duration and no call since: from
    tick 10 on the entry (7, 0, 10) is expired and not yet swept. *)
Definition stale_container : ZContainer :=
  insert 0 7 (new_container 10).

(** Two producers: the one that read the clock at tick 0 took the mutex
    after the one that read it at tick 10.  The deque holds (1, 10, 20)
    in front of (2, 0, 10). *)
Definition racy_container : ZContainer :=
  run [CallInsert 10 1; CallInsert 0 2] (new_container 10).

(** A duration of 9223371607000 milliseconds: 9223371607000000000
    ticks, which the tick count can hold. *)
Definition long_duration : Duration := milliseconds 9223371607000.

(** With that duration: an insert at tick 428890364702, whose sum still
    fits, an insert at tick 430000000000, whose sum wraps around to
    -9223372036709551616, and an eviction pass at that same tick. *)
Definition overflow_history : list (call Z) :=
  [CallInsert 428890364702 1; CallInsert 430000000000 2;
   CallRemoveExpired 430000000000].

Definition overflow_container : ZContainer :=
  run overflow_history (new_container long_duration).

(** A container with a 10-tick duration and its cleanup thread, as the
    constructor leaves them. *)
Definition fresh_system : @system Z (ListPQ.list_pq Z) := construct 10.

(** A schedule of a container with a 10-tick duration: two inserts with
    a wake-up of the cleanup thread between them, then the destructor
    and the wake-up that lets the thread leave its loop. *)
Definition sample_schedule : list (event Z) :=
  [EvCall (CallInsert 0 11); EvWake 5; EvCall (CallInsert 6 22);
   EvDestroy; EvWake 20].

(** What other threads and the cleanup thread may still do after the
    destructor has asked the thread to stop. *)
Definition late_schedule : list (event Z) :=
  [EvWake 20; EvCall (CallInsert 21 5); EvWake 40].

(** * Properties *)

(** ** 64-bit sums *)

Lemma wrap64_fits (z : Z) : fits64 z = true -> wrap64 z = z.
Proof.
  unfold fits64, wrap64. intros Hz. apply andb_true_iff in Hz.
  destruct Hz as [Hlo Hhi]. apply Z.leb_le in Hlo, Hhi.
  rewrite Z.mod_small; lia.
Qed.

(** ** Lists *)

Section ListFacts.

Variable A : Type.

Lemma Permutation_filter (f : A -> bool) (l l' : list A) :
  Permutation l l' -> Permutation (filter f l) (filter f l').
Proof.
  induction 1 as [|x l l' _ IH|x y l|l l' l'' _ IH1 _ IH2]; simpl.
  - constructor.
  - destruct (f x); [constructor|]; exact IH.
  - destruct (f x), (f y); try reflexivity. apply perm_swap.
  - now transitivity (filter f l').
Qed.

Lemma Permutation_forallb (f : A -> bool) (l l' : list A) :
  Permutation l l' -> forallb f l = forallb f l'.
Proof.
  induction 1 as [|x l l' _ IH|x y l|l l' l'' _ IH1 _ IH2]; simpl.
  - reflexivity.
  - now rewrite IH.
  - destruct (f x), (f y); reflexivity.
  - now rewrite IH1.
Qed.

Lemma filter_Forall_id (f : A -> bool) (l : list A) :
  Forall (fun x => f x = true) l -> filter f l = l.
Proof.
  intros Hl. apply forallb_filter_id. apply forallb_forall.
  now apply Forall_forall.
Qed.

Lemma Forall_filter (f : A -> bool) (l : list A) :
  Forall (fun x => f x = true) (filter f l).
Proof.
  apply Forall_forall. intros x Hx. now apply filter_In in Hx.
Qed.

Lemma StronglySorted_filter (R : A -> A -> Prop) (f : A -> bool)
    (l : list A) :
  StronglySorted R l -> StronglySorted R (filter f l).
Proof.
  induction 1 as [|x l Hs IH Hx]; simpl; [constructor|].
  destruct (f x); [|exact IH].
  constructor; [exact IH|].
  rewrite Forall_forall in *. intros y Hy. apply Hx.
  now apply filter_In in Hy.
Qed.

Lemma filter_negb_length (f : A -> bool) (l : list A) :
  (length (filter f l) + length (filter (fun x => negb (f x)) l))%nat =
  length l.
Proof.
  induction l as [|x l IH]; simpl; [reflexivity|].
  destruct (f x); simpl; lia.
Qed.

Lemma last_cons (l : list A) : forall x y : A,
  last (y :: l) x = last l y.
Proof.
  induction l as [|z l IH]; intros x y; [reflexivity|].
  change (last (y :: z :: l) x) with (last (z :: l) x).
  now rewrite !IH.
Qed.

Lemma back_split (l : list A) : forall x : A,
  exists front, x :: l = front ++ [last l x].
Proof.
  induction l as [|y l IH]; intros x.
  - now exists [].
  - destruct (IH y) as (front & E). exists (x :: front).
    rewrite last_cons. simpl app. now rewrite <- E.
Qed.


Lemma length_le_0_nil (l : list A) : (length l <= 0)%nat -> l = [].
Proof.
  destruct l; simpl; [reflexivity|lia].
Qed.

End ListFacts.

(** ** The priority queue contract, in the shape the loops use it *)

Section QueueFacts.

Context {T : Type} `{PriorityQueue T}.

Lemma pq_empty_true (q : PQ) : pq_empty q = true -> pq_elems q = [].
Proof.
  rewrite pq_empty_spec. destruct (pq_elems q); [reflexivity|discriminate].
Qed.

Lemma pq_empty_false (q : PQ) : pq_empty q = false -> pq_elems q <> [].
Proof.
  rewrite pq_empty_spec. destruct (pq_elems q); [discriminate|congruence].
Qed.

Lemma pq_empty_nil (q : PQ) : pq_elems q = [] -> pq_empty q = true.
Proof.
  intros E. now rewrite pq_empty_spec, E.
Qed.

(** One iteration of a loop guarded by [!q.empty()]: the top exists, is
    a least entry, and popping takes exactly it out. *)
Lemma pq_step (q : PQ) : pq_empty q = false ->
  exists x, pq_top q = Some x /\
            Permutation (x :: pq_elems (pq_pop q)) (pq_elems q) /\
            forall y, In y (pq_elems q) -> expiration x <= expiration y.
Proof.
  intros E. apply pq_empty_false in E.
  destruct (pq_top_spec q E) as (x & Htop & _ & Hmin).
  exists x. split; [exact Htop|]. split.
  - now apply pq_pop_spec.
  - intros y Hy. specialize (Hmin y Hy). unfold TimedData_gt in Hmin.
    now apply Z.ltb_ge in Hmin.
Qed.

Lemma pq_pop_length (q : PQ) x :
  Permutation (x :: pq_elems (pq_pop q)) (pq_elems q) ->
  forall fuel, (length (pq_elems q) <= S fuel)%nat ->
               (length (pq_elems (pq_pop q)) <= fuel)%nat.
Proof.
  intros P fuel Hf. apply Permutation_length in P. simpl in P. lia.
Qed.

(** *** The order in which a drained copy yields its entries *)

Lemma drain_entries_perm (fuel : nat) : forall q : PQ,
  (length (pq_elems q) <= fuel)%nat ->
  Permutation (drain_entries fuel q) (pq_elems q).
Proof.
  induction fuel as [|fuel IH]; intros q Hf; simpl.
  - apply length_le_0_nil in Hf. now rewrite Hf.
  - destruct (pq_empty q) eqn:E.
    + apply pq_empty_true in E. now rewrite E.
    + destruct (pq_step q E) as (x & -> & P & _).
      rewrite <- P. constructor. apply IH. eapply pq_pop_length; eauto.
Qed.

Lemma drain_entries_sorted (fuel : nat) : forall q : PQ,
  (length (pq_elems q) <= fuel)%nat ->
  StronglySorted expiration_le (drain_entries fuel q).
Proof.
  induction fuel as [|fuel IH]; intros q Hf; simpl; [constructor|].
  destruct (pq_empty q) eqn:E; [constructor|].
  destruct (pq_step q E) as (x & -> & P & Hmin).
  assert (Hf' := pq_pop_length q P Hf).
  constructor; [now apply IH|].
  apply Forall_forall. intros y Hy. apply Hmin.
  eapply Permutation_in; [exact P|]. right.
  eapply Permutation_in; [apply drain_entries_perm; exact Hf'|exact Hy].
Qed.

(** Fuel beyond the size of the queue is never used. *)
Lemma drain_entries_fuel (f1 : nat) : forall (f2 : nat) (q : PQ),
  (length (pq_elems q) <= f1)%nat -> (length (pq_elems q) <= f2)%nat ->
  drain_entries f1 q = drain_entries f2 q.
Proof.
  induction f1 as [|f1 IH]; intros f2 q H1 H2.
  - apply length_le_0_nil in H1. apply pq_empty_nil in H1.
    destruct f2; simpl; [reflexivity|now rewrite H1].
  - destruct f2 as [|f2].
    + apply length_le_0_nil in H2. apply pq_empty_nil in H2.
      simpl. now rewrite H2.
    + simpl. destruct (pq_empty q) eqn:E; [reflexivity|].
      destruct (pq_step q E) as (x & -> & P & _).
      f_equal. apply IH; eapply pq_pop_length; eauto.
Qed.

Lemma drain_valid_entries (fuel : nat) : forall (q : PQ) (acc : list T),
  drain_valid fuel q acc = acc ++ map data (drain_entries fuel q).
Proof.
  induction fuel as [|fuel IH]; intros q acc; simpl.
  - now rewrite app_nil_r.
  - destruct (pq_empty q); [now rewrite app_nil_r|].
    destruct (pq_top q) as [x|]; [|now rewrite app_nil_r].
    rewrite IH. simpl. now rewrite <- app_assoc.
Qed.

Lemma drain_exceeding_entries (fuel : nat) (time : TimePoint) :
  forall (q : PQ) (acc : list T),
  drain_exceeding fuel time q acc =
  acc ++ map data (filter (inserted_after time) (drain_entries fuel q)).
Proof.
  induction fuel as [|fuel IH]; intros q acc; simpl.
  - now rewrite app_nil_r.
  - destruct (pq_empty q); [now rewrite app_nil_r|].
    destruct (pq_top q) as [x|]; [|now rewrite app_nil_r].
    rewrite IH. simpl. unfold inserted_after at 2.
    destruct (time <? insertion x); simpl; [|reflexivity].
    now rewrite <- app_assoc.
Qed.

Lemma scan_less_than_all_entries (fuel : nat) (time : TimePoint) :
  forall q : PQ,
  scan_less_than_all fuel time q =
  forallb (inserted_after time) (drain_entries fuel q).
Proof.
  induction fuel as [|fuel IH]; intros q; simpl; [reflexivity|].
  destruct (pq_empty q); [reflexivity|].
  destruct (pq_top q) as [x|]; [|reflexivity].
  simpl. unfold inserted_after at 1. rewrite IH.
  rewrite Z.ltb_antisym. now destruct (insertion x <=? time).
Qed.

End QueueFacts.

(** ** Eviction *)

Section EvictionFacts.

Context {T : Type} `{PriorityQueue T}.

Lemma live_expired (now : TimePoint) (e : TimedData T) :
  live now e = negb (expiration e <=? now).
Proof.
  unfold live. apply Z.ltb_antisym.
Qed.

(** The first loop of [remove_expired] leaves exactly the live
    entries in the queue. *)
Lemma pop_expired_perm (now : TimePoint) (fuel : nat) : forall q : PQ,
  (length (pq_elems q) <= fuel)%nat ->
  Permutation (pq_elems (pop_expired fuel now q))
              (filter (live now) (pq_elems q)).
Proof.
  induction fuel as [|fuel IH]; intros q Hf; simpl.
  - apply length_le_0_nil in Hf. now rewrite Hf.
  - destruct (pq_empty q) eqn:E.
    + apply pq_empty_true in E. now rewrite E.
    + destruct (pq_step q E) as (x & -> & P & Hmin).
      destruct (expiration x <=? now) eqn:C.
      * rewrite IH by (eapply pq_pop_length; eauto).
        rewrite <- (Permutation_filter (live now) P). simpl.
        now rewrite live_expired, C.
      * rewrite filter_Forall_id; [reflexivity|].
        apply Forall_forall. intros y Hy. specialize (Hmin y Hy).
        apply Z.leb_gt in C. unfold live. apply Z.ltb_lt. lia.
Qed.

(** A queue without expired entries is left alone. *)
Lemma pop_expired_fixed (now : TimePoint) (fuel : nat) (q : PQ) :
  Forall (fun e => live now e = true) (pq_elems q) ->
  pop_expired fuel now q = q.
Proof.
  intros Hl. destruct fuel as [|fuel]; simpl; [reflexivity|].
  destruct (pq_empty q) eqn:E; [reflexivity|].
  destruct (pq_step q E) as (x & -> & P & _).
  assert (Hx : live now x = true).
  { rewrite Forall_forall in Hl. apply Hl.
    eapply Permutation_in; [exact P|]. now left. }
  rewrite live_expired in Hx. now destruct (expiration x <=? now).
Qed.

Lemma pop_expired_live (now : TimePoint) (fuel : nat) (q : PQ) :
  (length (pq_elems q) <= fuel)%nat ->
  Forall (fun e => live now e = true) (pq_elems (pop_expired fuel now q)).
Proof.
  intros Hf. rewrite (pop_expired_perm now q Hf). apply Forall_filter.
Qed.

(** Fuel beyond the size of the queue is never used. *)
Lemma pop_expired_fuel (now : TimePoint) (f1 : nat) :
  forall (f2 : nat) (q : PQ),
  (length (pq_elems q) <= f1)%nat -> (length (pq_elems q) <= f2)%nat ->
  pop_expired f1 now q = pop_expired f2 now q.
Proof.
  induction f1 as [|f1 IH]; intros f2 q H1 H2.
  - apply length_le_0_nil in H1. apply pq_empty_nil in H1.
    destruct f2; simpl; [reflexivity|now rewrite H1].
  - destruct f2 as [|f2].
    + apply length_le_0_nil in H2. apply pq_empty_nil in H2.
      simpl. now rewrite H2.
    + simpl. destruct (pq_empty q) eqn:E; [reflexivity|].
      destruct (pq_step q E) as (x & -> & P & _).
      destruct (expiration x <=? now); [|reflexivity].
      apply IH; eapply pq_pop_length; eauto.
Qed.

(** The second loop of [remove_expired]. *)
Lemma pop_front_expired_idem (now : TimePoint) (l : list (TimedData T)) :
  pop_front_expired now (pop_front_expired now l) = pop_front_expired now l.
Proof.
  induction l as [|x l IH]; simpl; [reflexivity|].
  destruct (expiration x <=? now) eqn:C; [exact IH|].
  simpl. now rewrite C.
Qed.

Lemma pop_front_expired_filter (now : TimePoint) (l : list (TimedData T)) :
  StronglySorted expiration_le l ->
  pop_front_expired now l = filter (live now) l.
Proof.
  induction 1 as [|x l Hs IH Hx]; simpl; [reflexivity|].
  rewrite live_expired.
  destruct (expiration x <=? now) eqn:C; simpl; [exact IH|].
  f_equal. symmetry. apply filter_Forall_id.
  eapply Forall_impl; [|exact Hx].
  intros y Hy. unfold expiration_le in Hy. apply Z.leb_gt in C.
  unfold live. apply Z.ltb_lt. lia.
Qed.

(** The deque loses a prefix of expired entries and nothing else. *)
Lemma pop_front_expired_prefix (now : TimePoint) (l : list (TimedData T)) :
  exists pre,
    l = pre ++ pop_front_expired now l /\
    Forall (fun e => expiration e <= now) pre.
Proof.
  induction l as [|x l (pre & E & Hpre)]; simpl.
  - exists []. now split.
  - destruct (expiration x <=? now) eqn:C.
    + exists (x :: pre). split; [simpl; now f_equal|].
      constructor; [now apply Z.leb_le|exact Hpre].
    + exists []. now split.
Qed.

(** *** The invariant *)

(** With one shared duration, insertion order is expiration order. *)
Lemma insertion_sorted_expiration (d : Duration) (l : list (TimedData T)) :
  Forall (fun e => expiration e = insertion e + d) l ->
  StronglySorted insertion_le l -> StronglySorted expiration_le l.
Proof.
  intros Httl. induction 1 as [|x l Hs IH Hx]; [constructor|].
  inversion Httl as [|? ? Ex Hl]; subst.
  constructor; [now apply IH|].
  rewrite Forall_forall in *. intros y Hy.
  specialize (Hx y Hy). specialize (Hl y Hy).
  unfold insertion_le in Hx. unfold expiration_le. lia.
Qed.

Lemma inv_expiration_sorted (c : ExpiringDataContainer T) :
  container_inv c -> StronglySorted expiration_le (insertion_order c).
Proof.
  intros [_ Hs Httl]. eapply insertion_sorted_expiration; eauto.
Qed.

Lemma new_container_inv (d : Duration) : container_inv (new_container d).
Proof.
  split; simpl.
  - unfold in_sync. simpl. now rewrite pq_new_elems.
  - constructor.
  - constructor.
Qed.

Lemma new_container_bound (d : Duration) (t : TimePoint) :
  clock_bound t (new_container d).
Proof.
  constructor.
Qed.

Lemma StronglySorted_snoc (R : TimedData T -> TimedData T -> Prop)
    (l : list (TimedData T)) (x : TimedData T) :
  StronglySorted R l -> Forall (fun y => R y x) l ->
  StronglySorted R (l ++ [x]).
Proof.
  induction 1 as [|y l Hs IH Hy]; intros Hx; simpl.
  - repeat constructor.
  - inversion Hx; subst. constructor; [now apply IH|].
    apply Forall_app. split; [exact Hy|]. now constructor.
Qed.

Lemma insert_inv (now : TimePoint) (v : T) (c : ExpiringDataContainer T) :
  container_inv c -> clock_bound now c ->
  fits64 (now + fixed_duration c) = true ->
  container_inv (insert now v c).
Proof.
  intros [Hsync Hs Httl] Hb Hfit. split; simpl.
  - unfold in_sync in *. simpl. rewrite pq_push_spec, Hsync.
    apply Permutation_cons_append.
  - apply StronglySorted_snoc; [exact Hs|exact Hb].
  - apply Forall_app. split; [exact Httl|].
    constructor; [|constructor]. simpl. now apply wrap64_fits.
Qed.

Lemma insert_bound (t now : TimePoint) (v : T)
    (c : ExpiringDataContainer T) :
  clock_bound t c -> t <= now -> clock_bound now (insert now v c).
Proof.
  unfold clock_bound. intros Hb Hle. simpl. apply Forall_app. split.
  - eapply Forall_impl; [|exact Hb]. simpl. intros; lia.
  - constructor; [simpl; lia|constructor].
Qed.

Lemma remove_expired_pq (now : TimePoint) (c : ExpiringDataContainer T) :
  Permutation (pq_elems (pq (remove_expired now c)))
              (filter (live now) (pq_elems (pq c))).
Proof.
  simpl. apply pop_expired_perm. now rewrite pq_size_spec.
Qed.

Lemma remove_expired_inv (now : TimePoint) (c : ExpiringDataContainer T) :
  container_inv c -> container_inv (remove_expired now c).
Proof.
  intros Hinv. assert (Hse := inv_expiration_sorted Hinv).
  destruct Hinv as [Hsync Hs Httl].
  assert (E : insertion_order (remove_expired now c) =
              filter (live now) (insertion_order c))
    by (simpl; now apply pop_front_expired_filter).
  split.
  - unfold in_sync in *. rewrite remove_expired_pq, E.
    now apply Permutation_filter.
  - rewrite E. now apply StronglySorted_filter.
  - rewrite E. simpl. rewrite Forall_forall in *. intros y Hy.
    apply Httl. now apply filter_In in Hy.
Qed.

Lemma remove_expired_bound (t now : TimePoint)
    (c : ExpiringDataContainer T) :
  clock_bound t c -> clock_bound t (remove_expired now c).
Proof.
  unfold clock_bound. simpl. intros Hb.
  destruct (pop_front_expired_prefix now (insertion_order c))
    as (pre & E & _).
  rewrite E in Hb. now apply Forall_app in Hb.
Qed.

Lemma clock_bound_mono (t t' : TimePoint) (c : ExpiringDataContainer T) :
  clock_bound t c -> t <= t' -> clock_bound t' c.
Proof.
  unfold clock_bound. intros Hb Hle.
  eapply Forall_impl; [|exact Hb]. simpl. intros; lia.
Qed.

Lemma do_call_inv (t : TimePoint) (k : call T) (c : ExpiringDataContainer T) :
  container_inv c -> clock_bound t c -> t <= call_now k ->
  call_in_range (fixed_duration c) k = true ->
  container_inv (do_call c k) /\ clock_bound (call_now k) (do_call c k).
Proof.
  intros Hinv Hb Hle Hfit.
  destruct k as [now v|now|now|now time]; simpl in *.
  - split; [apply insert_inv; [exact Hinv| |exact Hfit]
           |eapply insert_bound; eauto].
    eapply clock_bound_mono; eauto.
  - split; [now apply remove_expired_inv|].
    apply remove_expired_bound. eapply clock_bound_mono; eauto.
  - split; [now apply remove_expired_inv|].
    apply remove_expired_bound. eapply clock_bound_mono; eauto.
  - split; [now apply remove_expired_inv|].
    apply remove_expired_bound. eapply clock_bound_mono; eauto.
Qed.

Lemma do_call_fixed_duration (k : call T) (c : ExpiringDataContainer T) :
  fixed_duration (do_call c k) = fixed_duration c.
Proof.
  now destruct k.
Qed.

(** The invariant holds along every history with a monotone clock in
    which no sum of [insert] wraps around. *)
Lemma run_inv (ks : list (call T)) :
  forall (t0 : TimePoint) (c : ExpiringDataContainer T),
  container_inv c -> clock_bound t0 c -> clock_monotone t0 ks = true ->
  history_in_range (fixed_duration c) ks = true ->
  container_inv (run ks c).
Proof.
  induction ks as [|k ks IH]; intros t0 c Hinv Hb Hm Hr; simpl in *.
  - exact Hinv.
  - apply andb_true_iff in Hm. destruct Hm as [Hle Hm].
    apply andb_true_iff in Hr. destruct Hr as [Hk Hr].
    apply Z.leb_le in Hle.
    destruct (do_call_inv k Hinv Hb Hle Hk) as [Hinv' Hb'].
    apply (IH (call_now k)); [exact Hinv'|exact Hb'|exact Hm|].
    now rewrite do_call_fixed_duration.
Qed.


End EvictionFacts.

(** ** The queries *)

Section QueryFacts.

Context {T : Type} `{PriorityQueue T}.

Lemma visited_perm (now : TimePoint) (c : ExpiringDataContainer T) :
  Permutation (visited now c) (filter (live now) (pq_elems (pq c))).
Proof.
  unfold visited. rewrite drain_entries_perm by now rewrite pq_size_spec.
  apply remove_expired_pq.
Qed.

Lemma visited_sorted (now : TimePoint) (c : ExpiringDataContainer T) :
  StronglySorted expiration_le (visited now c).
Proof.
  unfold visited. apply drain_entries_sorted. now rewrite pq_size_spec.
Qed.

Lemma get_valid_data_visited (now : TimePoint)
    (c : ExpiringDataContainer T) :
  fst (get_valid_data now c) = map data (visited now c).
Proof.
  unfold get_valid_data, visited. simpl. now rewrite drain_valid_entries.
Qed.

Lemma get_data_exceeding_visited (now time : TimePoint)
    (c : ExpiringDataContainer T) :
  fst (get_data_exceeding now time c) =
  map data (filter (inserted_after time) (visited now c)).
Proof.
  unfold get_data_exceeding, visited. simpl.
  now rewrite drain_exceeding_entries.
Qed.

Lemma is_less_than_all_forallb (time : TimePoint)
    (c : ExpiringDataContainer T) :
  is_less_than_all time c = forallb (inserted_after time) (pq_elems (pq c)).
Proof.
  unfold is_less_than_all. rewrite scan_less_than_all_entries.
  apply Permutation_forallb, drain_entries_perm. now rewrite pq_size_spec.
Qed.

Lemma remove_expired_deque (now : TimePoint) (c : ExpiringDataContainer T) :
  container_inv c ->
  insertion_order (remove_expired now c) =
  filter (live now) (insertion_order c).
Proof.
  intros Hinv. simpl. apply pop_front_expired_filter.
  now apply inv_expiration_sorted.
Qed.

End QueryFacts.

(** * The behaviour of the public methods *)

Section Methods.

Context {T : Type} `{PriorityQueue T}.

(** C1. [get_valid_data] called at clock value [now] first evicts: the
    state it leaves is [remove_expired now c], whose queue holds exactly
    the entries with [expiration > now], and whose deque does too in
    every state that satisfies the container invariant.  It then returns
    the values of exactly the entries with [expiration > now], in
    ascending order of expiration. *)
Theorem get_valid_data_spec (now : TimePoint)
    (c : ExpiringDataContainer T) :
  snd (get_valid_data now c) = remove_expired now c /\
  Permutation (pq_elems (pq (snd (get_valid_data now c))))
              (filter (live now) (pq_elems (pq c))) /\
  (container_inv c ->
   insertion_order (snd (get_valid_data now c)) =
   filter (live now) (insertion_order c)) /\
  exists l : list (TimedData T),
    Permutation l (filter (live now) (pq_elems (pq c))) /\
    StronglySorted expiration_le l /\
    fst (get_valid_data now c) = map data l.
Proof.
  split; [reflexivity|]. split; [apply remove_expired_pq|].
  split; [apply remove_expired_deque|].
  exists (visited now c). split; [apply visited_perm|].
  split; [apply visited_sorted|apply get_valid_data_visited].
Qed.

(** C4. [get_data_exceeding] called at clock value [now] first evicts
    as [get_valid_data] does, and then returns the values of exactly
    the live entries whose insertion is strictly after [time], in
    ascending order of expiration. *)
Theorem get_data_exceeding_spec (now time : TimePoint)
    (c : ExpiringDataContainer T) :
  snd (get_data_exceeding now time c) = remove_expired now c /\
  Permutation (pq_elems (pq (snd (get_data_exceeding now time c))))
              (filter (live now) (pq_elems (pq c))) /\
  (container_inv c ->
   insertion_order (snd (get_data_exceeding now time c)) =
   filter (live now) (insertion_order c)) /\
  exists l : list (TimedData T),
    Permutation l
      (filter (fun e => live now e && inserted_after time e)
              (pq_elems (pq c))) /\
    StronglySorted expiration_le l /\
    fst (get_data_exceeding now time c) = map data l.
Proof.
  split; [reflexivity|]. split; [apply remove_expired_pq|].
  split; [apply remove_expired_deque|].
  exists (filter (inserted_after time) (visited now c)). split.
  - rewrite (Permutation_filter (inserted_after time) (visited_perm now c)).
    clear. induction (pq_elems (pq c)) as [|x l IH]; simpl; [reflexivity|].
    destruct (live now x); simpl; [|exact IH].
    destruct (inserted_after time x); [constructor|]; exact IH.
  - split; [|apply get_data_exceeding_visited].
    apply StronglySorted_filter, visited_sorted.
Qed.

(** C6. [remove_expired] is idempotent: a second call with the same
    [now] leaves the state of the first call unchanged, in both
    structures. *)
Theorem remove_expired_idempotent (now : TimePoint)
    (c : ExpiringDataContainer T) :
  remove_expired now (remove_expired now c) = remove_expired now c.
Proof.
  unfold remove_expired at 1. simpl pq. simpl insertion_order.
  simpl fixed_duration. simpl stop_cleanup.
  unfold remove_expired. f_equal.
  - apply pop_expired_fixed, pop_expired_live. now rewrite pq_size_spec.
  - apply pop_front_expired_idem.
Qed.



(** C2, as the code has it.  [is_less_than_all] is a [const] method that
    makes no eviction pass: it answers [true] exactly when every entry the
    queue holds, live or expired but not yet swept, was inserted strictly
    after [time]; on an empty queue it answers [true].  On a state that
    has just been swept at [now] the entries it inspects are the live
    ones. *)
Theorem is_less_than_all_spec (time : TimePoint)
    (c : ExpiringDataContainer T) :
  (is_less_than_all time c = true <->
   Forall (fun e => time < insertion e) (pq_elems (pq c))) /\
  (pq_elems (pq c) = [] -> is_less_than_all time c = true) /\
  (forall now : TimePoint,
     is_less_than_all time (remove_expired now c) = true <->
     Forall (fun e => time < insertion e)
            (filter (live now) (pq_elems (pq c)))).
Proof.
  assert (Hall : forall l : list (TimedData T),
             forallb (inserted_after time) l = true <->
             Forall (fun e => time < insertion e) l).
  { intros l. rewrite forallb_forall, Forall_forall.
    unfold inserted_after. split; intros Hl x Hx; apply Z.ltb_lt; auto. }
  split; [|split].
  - rewrite is_less_than_all_forallb. apply Hall.
  - intros E. now rewrite is_less_than_all_forallb, E.
  - intros now. rewrite is_less_than_all_forallb.
    rewrite (Permutation_forallb _ (remove_expired_pq now c)). apply Hall.
Qed.

(** C3, as the code has it.  If [is_less_than_all time] answers [true]
    then [get_data_exceeding time] and [get_valid_data], called on the
    same state at the same clock value, return sequences of the same
    length.  The converse holds when the queue holds no expired entry
    at that clock value. *)
Theorem is_less_than_all_lengths (now time : TimePoint)
    (c : ExpiringDataContainer T) :
  (is_less_than_all time c = true ->
   length (fst (get_data_exceeding now time c)) =
   length (fst (get_valid_data now c))) /\
  (Forall (fun e => live now e = true) (pq_elems (pq c)) ->
   (is_less_than_all time c = true <->
    length (fst (get_data_exceeding now time c)) =
    length (fst (get_valid_data now c)))).
Proof.
  rewrite get_data_exceeding_visited, get_valid_data_visited.
  rewrite !length_map, is_less_than_all_forallb.
  assert (Hfwd : forallb (inserted_after time) (pq_elems (pq c)) = true ->
                 length (filter (inserted_after time) (visited now c)) =
                 length (visited now c)).
  { intros Hall. f_equal. apply forallb_filter_id.
    rewrite forallb_forall in *. intros x Hx. apply Hall.
    apply (Permutation_in _ (visited_perm now c)) in Hx.
    now apply filter_In in Hx. }
  split; [exact Hfwd|].
  intros Hlive. split; [exact Hfwd|].
  intros Hlen. apply filter_length_forallb in Hlen.
  rewrite (Permutation_forallb _ (visited_perm now c)) in Hlen.
  now rewrite filter_Forall_id in Hlen.
Qed.


(** C9. [size] is the number of entries the queue holds.  It is a
    [const] method that evicts nothing, so the count covers the entries
    [get_valid_data] would return at [now] and, on top of them, the
    entries that have expired by [now] and are still in the queue. *)
Theorem size_spec (c : ExpiringDataContainer T) :
  size c = length (pq_elems (pq c)) /\
  forall now : TimePoint,
    size c =
    (length (fst (get_valid_data now c)) +
     length (filter (fun e => negb (live now e)) (pq_elems (pq c))))%nat.
Proof.
  unfold size. rewrite pq_size_spec. split; [reflexivity|].
  intros now. rewrite get_valid_data_visited, length_map.
  rewrite (Permutation_length (visited_perm now c)).
  symmetry. apply filter_negb_length.
Qed.

Lemma insert_all_elems (nows : list TimePoint) (v : T) :
  forall c : ExpiringDataContainer T,
  Permutation
    (pq_elems (pq (insert_all nows v c)))
    (map (fun t => mkTimedData v t (wrap64 (t + fixed_duration c))) nows ++
     pq_elems (pq c)).
Proof.
  unfold insert_all.
  induction nows as [|t nows IH]; intros c; simpl; [reflexivity|].
  rewrite IH. simpl.
  rewrite pq_push_spec. symmetry. apply Permutation_middle.
Qed.

(** C10. After [insert(v)] has been called [length nows] times, at the
    clock values [nows], with every one of those entries still live at
    [now] (its expiration, the 64-bit sum that [insert] stored, is after
    [now]), [get_valid_data] at [now] returns a sequence that holds [v]
    at least [length nows] times: nothing merges equal values. *)
Theorem insert_repeated_valid (v : T) (nows : list TimePoint)
    (now : TimePoint) (c : ExpiringDataContainer T) :
  Forall (fun t => now < wrap64 (t + fixed_duration c)) nows ->
  exists rest : list T,
    Permutation (fst (get_valid_data now (insert_all nows v c)))
                (repeat v (length nows) ++ rest).
Proof.
  intros Hlive.
  exists (map data (filter (live now) (pq_elems (pq c)))).
  rewrite get_valid_data_visited.
  rewrite (visited_perm now (insert_all nows v c)).
  rewrite (Permutation_filter (live now) (insert_all_elems nows v c)).
  rewrite filter_app, map_app. apply Permutation_app_tail.
  rewrite filter_Forall_id.
  - rewrite map_map. simpl. clear. induction nows; simpl; [reflexivity|].
    now constructor.
  - apply Forall_forall. intros e He. apply in_map_iff in He.
    destruct He as (t & <- & Ht). rewrite Forall_forall in Hlive.
    unfold live. simpl. apply Z.ltb_lt. now apply Hlive.
Qed.

End Methods.

(** * The methods on concrete containers *)

Section Samples.

Let no_elements : exception :=
  runtime_error "No elements in the container".

Example sample_container_entries :
  pq_elems (pq sample_container) =
  [mkTimedData 11 0 10; mkTimedData 22 3 13; mkTimedData 33 6 16] /\
  insertion_order sample_container =
  [mkTimedData 11 0 10; mkTimedData 22 3 13; mkTimedData 33 6 16].
Proof.
  split; reflexivity.
Qed.

Example sample_get_valid_data :
  fst (get_valid_data 5 sample_container) = [11; 22; 33] /\
  fst (get_valid_data 12 sample_container) = [22; 33] /\
  fst (get_valid_data 16 sample_container) = [].
Proof.
  repeat split; reflexivity.
Qed.

Example sample_get_data_exceeding :
  fst (get_data_exceeding 5 0 sample_container) = [22; 33] /\
  fst (get_data_exceeding 12 3 sample_container) = [33].
Proof.
  split; reflexivity.
Qed.

Example sample_get_most_recent :
  get_most_recent sample_container = inr 33 /\
  get_most_recent (new_container 10 : ZContainer) = inl no_elements.
Proof.
  split; reflexivity.
Qed.

Example stale_queries :
  size stale_container = 1%nat /\
  get_most_recent stale_container = inr 7 /\
  is_less_than_all 5 stale_container = false /\
  fst (get_valid_data 100 stale_container) = [] /\
  fst (get_data_exceeding 100 5 stale_container) = [].
Proof.
  repeat split; reflexivity.
Qed.

Example racy_container_entries :
  insertion_order racy_container =
  [mkTimedData 1 10 20; mkTimedData 2 0 10] /\
  get_most_recent racy_container = inr 2.
Proof.
  split; reflexivity.
Qed.

Example overflow_container_entries :
  long_duration = 9223371607000000000 /\
  pq_elems (pq overflow_container) =
  [mkTimedData 1 428890364702 9223372035890364702] /\
  insertion_order overflow_container =
  [mkTimedData 1 428890364702 9223372035890364702;
   mkTimedData 2 430000000000 (-9223372036709551616)].
Proof.
  repeat split; vm_compute; reflexivity.
Qed.

Lemma sample_container_inv : container_inv sample_container.
Proof.
  apply (run_inv sample_history (t0:=0)).
  - apply new_container_inv.
  - apply new_container_bound.
  - reflexivity.
  - reflexivity.
Qed.

End Samples.

(** The postcondition of [get_valid_data] on the deque, in a state of a
    monotone history. *)
Lemma get_valid_data_spec_witness :
  container_inv sample_container /\
  insertion_order (snd (get_valid_data 12 sample_container)) =
  filter (live 12) (insertion_order sample_container).
Proof.
  split; [exact sample_container_inv|].
  apply (get_valid_data_spec 12 sample_container).
  exact sample_container_inv.
Defined.

Lemma get_data_exceeding_spec_witness :
  container_inv sample_container /\
  insertion_order (snd (get_data_exceeding 12 3 sample_container)) =
  filter (live 12) (insertion_order sample_container).
Proof.
  split; [exact sample_container_inv|].
  apply (get_data_exceeding_spec 12 3 sample_container).
  exact sample_container_inv.
Defined.




Lemma is_less_than_all_spec_witness :
  pq_elems (pq (new_container 10 : ZContainer)) = [] /\
  is_less_than_all 5 (new_container 10 : ZContainer) = true.
Proof.
  split; [reflexivity|].
  apply (is_less_than_all_spec 5 (new_container 10 : ZContainer)).
  reflexivity.
Defined.

Lemma is_less_than_all_lengths_witness :
  is_less_than_all (-1) sample_container = true /\
  length (fst (get_data_exceeding 12 (-1) sample_container)) =
  length (fst (get_valid_data 12 sample_container)) /\
  Forall (fun e => live 5 e = true) (pq_elems (pq sample_container)) /\
  (is_less_than_all 3 sample_container = true <->
   length (fst (get_data_exceeding 5 3 sample_container)) =
   length (fst (get_valid_data 5 sample_container))).
Proof.
  split; [reflexivity|]. split; [|split; [repeat constructor|]].
  - apply (proj1 (is_less_than_all_lengths 12 (-1) sample_container)).
    reflexivity.
  - apply (proj2 (is_less_than_all_lengths 5 3 sample_container)).
    repeat constructor.
Defined.

Lemma insert_repeated_valid_witness :
  Forall (fun t => 5 < wrap64 (t + fixed_duration sample_container))
         [1; 2; 3] /\
  exists rest : list Z,
    Permutation
      (fst (get_valid_data 5 (insert_all [1; 2; 3] 7 sample_container)))
      (repeat 7 3 ++ rest).
Proof.
  split; [repeat constructor|].
  apply (@insert_repeated_valid Z _ 7 [1; 2; 3] 5 sample_container).
  repeat constructor.
Defined.

(** * Where the code departs from the documented behaviour *)

(** C2 as documented fails on [stale_container] at clock value 100 with
    [time = 5]: no entry is live, so every live entry was inserted after
    tick 5, yet [is_less_than_all 5] answers [false], because it makes no
    eviction pass and meets the expired entry inserted at tick 0. *)
Lemma is_less_than_all_ignores_expiry :
  ~ (is_less_than_all 5 stale_container = true <->
     Forall (fun e => 5 < insertion e)
            (filter (live 100) (pq_elems (pq stale_container)))).
Proof.
  intros [_ Hlive]. specialize (Hlive (Forall_nil _)). discriminate Hlive.
Qed.

(** C3 as documented fails on [stale_container] at clock value 100 with
    [time = 5]: both [get_data_exceeding 5] and [get_valid_data] return
    the empty sequence, yet [is_less_than_all 5] answers [false]. *)
Lemma is_less_than_all_lengths_differ :
  ~ (is_less_than_all 5 stale_container = true <->
     length (fst (get_data_exceeding 100 5 stale_container)) =
     length (fst (get_valid_data 100 stale_container))).
Proof.
  intros [_ Hlen]. specialize (Hlen eq_refl). discriminate Hlen.
Qed.




(** * Further properties of the container *)

Section Composition.

Context {T : Type} `{PriorityQueue T}.

(** X16. [operator>] of [TimedData] is a strict weak ordering, as the
    comparison of a [std::priority_queue] has to be: it is irreflexive
    and transitive, and being unordered by it is transitive. *)
Theorem TimedData_gt_strict_weak :
  (forall a : TimedData T, TimedData_gt a a = false) /\
  (forall a b c : TimedData T,
     TimedData_gt a b = true -> TimedData_gt b c = true ->
     TimedData_gt a c = true) /\
  (forall a b c : TimedData T,
     TimedData_gt a b = false -> TimedData_gt b a = false ->
     TimedData_gt b c = false -> TimedData_gt c b = false ->
     TimedData_gt a c = false /\ TimedData_gt c a = false).
Proof.
  unfold TimedData_gt. split; [|split].
  - intros a. apply Z.ltb_irrefl.
  - intros a b c Hab Hbc. apply Z.ltb_lt in Hab, Hbc. apply Z.ltb_lt. lia.
  - intros a b c Hab Hba Hbc Hcb.
    apply Z.ltb_ge in Hab, Hba, Hbc, Hcb. split; apply Z.ltb_ge; lia.
Qed.

Lemma live_mono (now1 now2 : TimePoint) (e : TimedData T) :
  now2 <= now1 -> live now1 e = true -> live now2 e = true.
Proof.
  unfold live. intros Hle Hl. apply Z.ltb_lt in Hl. apply Z.ltb_lt. lia.
Qed.

(** A sweep of the queue at [now1] followed by one at a later [now2]
    pops what the later one alone pops. *)
Lemma pop_expired_later (now1 now2 : TimePoint) (f1 : nat) :
  forall (f2 : nat) (q : PQ),
  now1 <= now2 ->
  (length (pq_elems q) <= f1)%nat ->
  (length (pq_elems (pop_expired f1 now1 q)) <= f2)%nat ->
  pop_expired f2 now2 (pop_expired f1 now1 q) = pop_expired f1 now2 q.
Proof.
  induction f1 as [|f1 IH]; intros f2 q Hle H1 H2.
  - simpl in *. apply pop_expired_fixed.
    apply length_le_0_nil in H1. rewrite H1. constructor.
  - simpl in *. destruct (pq_empty q) eqn:E.
    + apply pop_expired_fixed. apply pq_empty_true in E. rewrite E.
      constructor.
    + destruct (pq_step q E) as (x & Etop & P & _). rewrite Etop in *.
      destruct (expiration x <=? now1) eqn:C1.
      * assert (C2 : (expiration x <=? now2) = true)
          by (apply Z.leb_le in C1; apply Z.leb_le; lia).
        rewrite C2. apply IH; [exact Hle| |exact H2].
        eapply pq_pop_length; eauto.
      * rewrite (@pop_expired_fuel T H now2 f2 (S f1) q H2 H1). simpl.
        now rewrite E, Etop.
Qed.

Lemma pop_front_expired_max (now1 now2 : TimePoint)
    (l : list (TimedData T)) :
  pop_front_expired now2 (pop_front_expired now1 l) =
  pop_front_expired (Z.max now1 now2) l.
Proof.
  induction l as [|x l IH]; simpl; [reflexivity|].
  destruct (expiration x <=? now1) eqn:C1.
  - assert (Cm : (expiration x <=? Z.max now1 now2) = true)
      by (apply Z.leb_le in C1; apply Z.leb_le; lia).
    now rewrite Cm.
  - simpl. destruct (expiration x <=? now2) eqn:C2.
    + assert (Cm : (expiration x <=? Z.max now1 now2) = true)
        by (apply Z.leb_le in C2; apply Z.leb_le; lia).
      rewrite Cm. apply Z.leb_gt in C1. apply Z.leb_le in C2.
      now replace (Z.max now1 now2) with now2 by lia.
    + assert (Cm : (expiration x <=? Z.max now1 now2) = false)
        by (apply Z.leb_gt in C1, C2; apply Z.leb_gt; lia).
      now rewrite Cm.
Qed.

Lemma remove_expired_max (now1 now2 : TimePoint)
    (c : ExpiringDataContainer T) :
  remove_expired now2 (remove_expired now1 c) =
  remove_expired (Z.max now1 now2) c.
Proof.
  unfold remove_expired at 1. simpl pq. simpl insertion_order.
  simpl fixed_duration. simpl stop_cleanup.
  unfold remove_expired. f_equal; [|apply pop_front_expired_max].
  destruct (Z.le_ge_cases now1 now2) as [Hle|Hge].
  - replace (Z.max now1 now2) with now2 by lia.
    apply pop_expired_later; [exact Hle| |]; now rewrite !pq_size_spec.
  - replace (Z.max now1 now2) with now1 by lia.
    apply pop_expired_fixed.
    eapply Forall_impl; [intros e He; exact (live_mono e Hge He)|].
    apply pop_expired_live. now rewrite pq_size_spec.
Qed.

(** X1. Two eviction passes in a row, at any two clock values, leave the
    state that one pass at the later of the two leaves. *)
Theorem remove_expired_compose (now1 now2 : TimePoint)
    (c : ExpiringDataContainer T) :
  remove_expired now2 (remove_expired now1 c) =
  remove_expired (Z.max now1 now2) c.
Proof.
  apply remove_expired_max.
Qed.

(** X2. A pass of the cleanup thread at [now'] changes neither what an
    evicting query at a clock value [now >= now'] returns nor the state
    that query leaves. *)
Theorem cleanup_unobservable (now' now time : TimePoint)
    (c : ExpiringDataContainer T) :
  now' <= now ->
  get_valid_data now (cleanup_step now' c) = get_valid_data now c /\
  get_data_exceeding now time (cleanup_step now' c) =
  get_data_exceeding now time c.
Proof.
  intros Hle. unfold get_valid_data, get_data_exceeding, cleanup_step.
  rewrite remove_expired_max.
  replace (Z.max now' now) with now by lia. now split.
Qed.

(** X3. Right after [insert(v)], in any state, [get_most_recent] returns
    [v]. *)
Theorem insert_get_most_recent (now : TimePoint) (v : T)
    (c : ExpiringDataContainer T) :
  get_most_recent (insert now v c) = inr v.
Proof.
  unfold get_most_recent. simpl.
  destruct (insertion_order c) as [|x l]; [reflexivity|].
  cbn [app]. now rewrite last_last.
Qed.

(** X4. [size] counts one more after [insert], never more after an eviction
    pass, and right after [get_valid_data] it is the length of the
    sequence that call returned. *)
Theorem size_after (now : TimePoint) (v : T)
    (c : ExpiringDataContainer T) :
  size (insert now v c) = S (size c) /\
  (size (remove_expired now c) <= size c)%nat /\
  size (snd (get_valid_data now c)) = length (fst (get_valid_data now c)).
Proof.
  unfold size. rewrite !pq_size_spec. split; [|split].
  - simpl. now rewrite (Permutation_length (pq_push_spec _ _)).
  - rewrite (Permutation_length (remove_expired_pq now c)).
    apply filter_length_le.
  - rewrite get_valid_data_visited, length_map.
    rewrite (Permutation_length (visited_perm now c)).
    change (snd (get_valid_data now c)) with (remove_expired now c).
    now rewrite (Permutation_length (remove_expired_pq now c)).
Qed.

(** X5. A container as the constructor leaves it satisfies the invariant and
    holds nothing: [size] is 0, the queries return empty sequences at
    every clock value and leave the container as constructed, and
    [print_state] prints the header line alone. *)
Theorem new_container_empty (d : Duration) (now time : TimePoint) :
  container_inv (new_container d) /\
  size (new_container d) = 0%nat /\
  get_valid_data now (new_container d) = ([], new_container d) /\
  get_data_exceeding now time (new_container d) = ([], new_container d) /\
  print_state (new_container d) =
  [OutText "State of the data ordered by insertion times:"; OutEndl].
Proof.
  assert (Hnil : pq_elems (pq (new_container d)) = [])
    by apply pq_new_elems.
  assert (Hsize : pq_size (pq (new_container d)) = 0%nat)
    by now rewrite pq_size_spec, Hnil.
  assert (Hsweep : remove_expired now (new_container d) = new_container d).
  { unfold remove_expired. simpl pq in *. rewrite Hsize. reflexivity. }
  split; [apply new_container_inv|]. split; [exact Hsize|].
  unfold get_valid_data, get_data_exceeding, print_state.
  rewrite Hsweep, Hsize. repeat split.
Qed.

End Composition.

Section Lifetime.

Context {T : Type} `{PriorityQueue T}.

Lemma do_call_pq (k : call T) (c : ExpiringDataContainer T) :
  match k with
  | CallInsert now v =>
      Permutation (pq_elems (pq (do_call c k)))
        (mkTimedData v now (wrap64 (now + fixed_duration c))
           :: pq_elems (pq c))
  | _ =>
      Permutation (pq_elems (pq (do_call c k)))
        (filter (live (call_now k)) (pq_elems (pq c)))
  end.
Proof.
  destruct k as [now v|now|now|now time]; simpl.
  - apply pq_push_spec.
  - apply (remove_expired_pq now c).
  - apply (remove_expired_pq now c).
  - apply (remove_expired_pq now c).
Qed.

Lemma do_call_duration (k : call T) (c : ExpiringDataContainer T) :
  fixed_duration (do_call c k) = fixed_duration c.
Proof.
  now destruct k.
Qed.

Lemma run_duration (ks : list (call T)) :
  forall c : ExpiringDataContainer T,
  fixed_duration (run ks c) = fixed_duration c.
Proof.
  unfold run. induction ks as [|k ks IH]; intros c; simpl; [reflexivity|].
  now rewrite IH, do_call_duration.
Qed.

(** An entry of the queue stays there through every call that reads a
    clock value before its expiration. *)
Lemma run_keeps_live (e : TimedData T) (ks : list (call T)) :
  forall c : ExpiringDataContainer T,
  In e (pq_elems (pq c)) ->
  Forall (fun k => call_now k < expiration e) ks ->
  In e (pq_elems (pq (run ks c))).
Proof.
  unfold run. induction ks as [|k ks IH]; intros c Hin Hks; simpl;
    [exact Hin|].
  inversion Hks as [|? ? Hk Hks']; subst. apply IH; [|exact Hks'].
  assert (Hstep := do_call_pq k c).
  assert (Hlive : In e (filter (live (call_now k)) (pq_elems (pq c)))).
  { apply filter_In. split; [exact Hin|]. unfold live.
    now apply Z.ltb_lt. }
  destruct k as [now v|now|now|now time];
    (eapply Permutation_in; [symmetry; exact Hstep|]);
    [now right|exact Hlive..].
Qed.

(** X6. A value inserted at [t0] is returned by [get_valid_data], and by
    [get_data_exceeding time] for [time < t0], at every clock value
    before the expiration that [insert] stored, the 64-bit sum of [t0]
    and [fixed_duration], whatever other calls were served in between
    at clock values before that expiration. *)
Theorem inserted_value_lives (t0 now time : TimePoint) (v : T)
    (ks : list (call T)) (c : ExpiringDataContainer T) :
  Forall (fun k => call_now k < wrap64 (t0 + fixed_duration c)) ks ->
  now < wrap64 (t0 + fixed_duration c) ->
  In v (fst (get_valid_data now (run ks (insert t0 v c)))) /\
  (time < t0 ->
   In v (fst (get_data_exceeding now time (run ks (insert t0 v c))))).
Proof.
  intros Hks Hnow.
  set (e := mkTimedData v t0 (wrap64 (t0 + fixed_duration c))).
  assert (Hin : In e (pq_elems (pq (run ks (insert t0 v c))))).
  { apply run_keeps_live; [|exact Hks].
    eapply Permutation_in; [symmetry; apply pq_push_spec|]. now left. }
  assert (Hvis : In e (visited now (run ks (insert t0 v c)))).
  { eapply Permutation_in; [symmetry; apply visited_perm|].
    apply filter_In. split; [exact Hin|]. unfold live. simpl.
    now apply Z.ltb_lt. }
  split.
  - rewrite get_valid_data_visited. now apply (in_map data) in Hvis.
  - intros Htime. rewrite get_data_exceeding_visited.
    change v with (data e). apply in_map. apply filter_In.
    split; [exact Hvis|]. unfold inserted_after. simpl.
    now apply Z.ltb_lt.
Qed.

(** X7. Once the clock has passed the last insertion by [fixed_duration],
    an evicting query returns nothing and empties both structures. *)
Theorem all_expired_empty (t now : TimePoint)
    (c : ExpiringDataContainer T) :
  container_inv c -> clock_bound t c -> t + fixed_duration c <= now ->
  fst (get_valid_data now c) = [] /\
  pq_elems (pq (snd (get_valid_data now c))) = [] /\
  insertion_order (snd (get_valid_data now c)) = [] /\
  size (snd (get_valid_data now c)) = 0%nat /\
  get_most_recent (snd (get_valid_data now c)) =
  inl (runtime_error "No elements in the container").
Proof.
  intros Hinv Hb Hnow.
  assert (Hdq : filter (live now) (insertion_order c) = []).
  { destruct Hinv as [_ _ Httl]. unfold clock_bound in Hb.
    induction (insertion_order c) as [|x l IH]; [reflexivity|].
    inversion Httl; inversion Hb; subst. simpl.
    replace (live now x) with false; [now apply IH|].
    symmetry. unfold live. apply Z.ltb_ge. lia. }
  assert (Hpq : filter (live now) (pq_elems (pq c)) = []).
  { apply Permutation_nil. rewrite <- Hdq.
    apply Permutation_filter. symmetry. apply (inv_sync Hinv). }
  assert (Hq' : pq_elems (pq (snd (get_valid_data now c))) = []).
  { apply Permutation_nil. symmetry. rewrite <- Hpq.
    apply remove_expired_pq. }
  assert (Hd' : insertion_order (snd (get_valid_data now c)) = []).
  { rewrite <- Hdq. now apply remove_expired_deque. }
  split; [|split; [exact Hq'|split; [exact Hd'|split]]].
  - rewrite get_valid_data_visited.
    assert (Hv : visited now c = []).
    { apply Permutation_nil. symmetry. rewrite <- Hpq.
      apply visited_perm. }
    now rewrite Hv.
  - unfold size. now rewrite pq_size_spec, Hq'.
  - unfold get_most_recent. now rewrite Hd'.
Qed.

(** X8. The container makes up no entry and changes none: whatever it holds
    after a history was in it before, or is the entry of an [insert(v)]
    of that history that read the clock value [now]: value [v],
    insertion [now], expiration the 64-bit sum of [now] and
    [fixed_duration]. *)
Theorem entries_provenance (ks : list (call T)) :
  forall (c : ExpiringDataContainer T) (e : TimedData T),
  (In e (pq_elems (pq (run ks c))) ->
   In e (pq_elems (pq c)) \/
   exists now v, In (CallInsert now v) ks /\
                 e = mkTimedData v now (wrap64 (now + fixed_duration c))) /\
  (In e (insertion_order (run ks c)) ->
   In e (insertion_order c) \/
   exists now v, In (CallInsert now v) ks /\
                 e = mkTimedData v now (wrap64 (now + fixed_duration c))).
Proof.
  unfold run. induction ks as [|k ks IH]; intros c e; simpl.
  - split; intros He; now left.
  - destruct (IH (do_call c k) e) as [IHq IHd].
    rewrite do_call_duration in IHq, IHd.
    assert (Hsweep : forall now,
               In e (insertion_order (remove_expired now c)) ->
               In e (insertion_order c)).
    { intros now He. simpl in He.
      destruct (pop_front_expired_prefix now (insertion_order c))
        as (pre & E & _).
      rewrite E. apply in_or_app. now right. }
    split; intros He.
    + destruct (IHq He) as [Hk|(now & v & Hin & ->)].
      * assert (Hstep := do_call_pq k c).
        destruct k as [now v|now|now|now time];
          apply (Permutation_in _ Hstep) in Hk.
        -- destruct Hk as [<-|Hk]; [right|now left].
           exists now, v. split; [now left|reflexivity].
        -- left. now apply filter_In in Hk.
        -- left. now apply filter_In in Hk.
        -- left. now apply filter_In in Hk.
      * right. exists now, v. split; [now right|reflexivity].
    + destruct (IHd He) as [Hk|(now & v & Hin & ->)].
      * destruct k as [now v|now|now|now time]; simpl in Hk.
        -- apply in_app_or in Hk. destruct Hk as [Hk|[<-|[]]];
             [now left|right].
           exists now, v. split; [now left|reflexivity].
        -- left. now apply (Hsweep now).
        -- left. now apply (Hsweep now).
        -- left. now apply (Hsweep now).
      * right. exists now, v. split; [now right|reflexivity].
Qed.

End Lifetime.

(** ** Order of the results *)

Section SortedFacts.

Variable A : Type.
Variable key : A -> Z.

(** A list sorted by a key without repeats is the only sorted
    arrangement of its elements. *)
Lemma sorted_perm_eq (l1 : list A) : forall l2 : list A,
  StronglySorted (fun a b => key a <= key b) l1 ->
  StronglySorted (fun a b => key a < key b) l2 ->
  Permutation l1 l2 -> l1 = l2.
Proof.
  induction l1 as [|a l1 IH]; intros l2 Hs1 Hs2 P.
  - now apply Permutation_nil in P.
  - destruct l2 as [|b l2];
      [symmetry in P; now apply Permutation_nil in P|].
    inversion Hs1 as [|? ? Hs1' Ha]; subst.
    inversion Hs2 as [|? ? Hs2' Hb]; subst.
    rewrite Forall_forall in Ha, Hb.
    assert (Hab : a = b).
    { assert (Hina : In a (b :: l2))
        by (eapply Permutation_in; [exact P|now left]).
      assert (Hinb : In b (a :: l1))
        by (eapply Permutation_in; [symmetry; exact P|now left]).
      destruct Hina as [Heq|Hina]; [now symmetry|].
      destruct Hinb as [Heq|Hinb]; [exact Heq|].
      specialize (Ha _ Hinb). specialize (Hb _ Hina). lia. }
    subst b. f_equal. apply IH; [exact Hs1'|exact Hs2'|].
    eapply Permutation_cons_inv; exact P.
Qed.

Lemma subsequence_filter (f : A -> bool) (l : list A) :
  subsequence (filter f l) l.
Proof.
  induction l as [|x l IH]; simpl; [constructor|].
  destruct (f x); now constructor.
Qed.

Lemma filter_filter_implies (f g : A -> bool) (l : list A) :
  (forall x, f x = true -> g x = true) ->
  filter f (filter g l) = filter f l.
Proof.
  intros Hfg. induction l as [|x l IH]; simpl; [reflexivity|].
  destruct (g x) eqn:G; simpl; [now rewrite IH|].
  destruct (f x) eqn:F; [|exact IH].
  apply Hfg in F. congruence.
Qed.

End SortedFacts.

Lemma subsequence_map (A B : Type) (g : A -> B) (l1 l2 : list A) :
  subsequence l1 l2 -> subsequence (map g l1) (map g l2).
Proof.
  induction 1; simpl; now constructor.
Qed.

Section Order.

Context {T : Type} `{PriorityQueue T}.

(** X9. In a state that satisfies the invariant, [is_less_than_all] is
    decided by the oldest entry alone, the front of the deque: the
    answer is whether [time] is before its insertion. *)
Theorem is_less_than_all_front (time : TimePoint)
    (c : ExpiringDataContainer T) :
  container_inv c ->
  is_less_than_all time c =
  match insertion_order c with
  | [] => true
  | x :: _ => time <? insertion x
  end.
Proof.
  intros [Hsync Hs _]. rewrite is_less_than_all_forallb.
  rewrite (Permutation_forallb _ Hsync).
  destruct (insertion_order c) as [|x l]; [reflexivity|].
  simpl. unfold inserted_after at 1.
  destruct (time <? insertion x) eqn:C; [|reflexivity].
  simpl. apply forallb_forall. intros y Hy.
  inversion Hs as [|? ? _ Hx]; subst. rewrite Forall_forall in Hx.
  specialize (Hx y Hy). unfold insertion_le in Hx.
  apply Z.ltb_lt in C. unfold inserted_after. apply Z.ltb_lt. lia.
Qed.

(** X10. On the same state at the same clock value, [get_data_exceeding]
    leaves the state that [get_valid_data] leaves and returns what
    [get_valid_data] returns with some values struck out, the order
    kept; a later [time] strikes out more. *)
Theorem get_data_exceeding_subsequence (now time time' : TimePoint)
    (c : ExpiringDataContainer T) :
  snd (get_data_exceeding now time c) = snd (get_valid_data now c) /\
  subsequence (fst (get_data_exceeding now time c))
              (fst (get_valid_data now c)) /\
  (time <= time' ->
   subsequence (fst (get_data_exceeding now time' c))
               (fst (get_data_exceeding now time c))).
Proof.
  split; [reflexivity|].
  rewrite !get_data_exceeding_visited, get_valid_data_visited.
  split.
  - apply subsequence_map, subsequence_filter.
  - intros Hle.
    rewrite <- (filter_filter_implies (inserted_after time')
                  (inserted_after time)).
    + apply subsequence_map, subsequence_filter.
    + unfold inserted_after. intros x Hx.
      apply Z.ltb_lt in Hx. apply Z.ltb_lt. lia.
Qed.

Lemma insertion_lt_expiration_lt (d : Duration) (l : list (TimedData T)) :
  Forall (fun e => expiration e = insertion e + d) l ->
  StronglySorted insertion_lt l ->
  StronglySorted (fun a b => expiration a < expiration b) l.
Proof.
  intros Httl. induction 1 as [|x l Hs IH Hx]; [constructor|].
  inversion Httl as [|? ? Ex Hl]; subst.
  constructor; [now apply IH|].
  rewrite Forall_forall in *. intros y Hy.
  specialize (Hx y Hy). specialize (Hl y Hy).
  unfold insertion_lt in Hx. lia.
Qed.

Lemma expiration_sorted_insertion (d : Duration) (l : list (TimedData T)) :
  Forall (fun e => expiration e = insertion e + d) l ->
  StronglySorted expiration_le l -> StronglySorted insertion_le l.
Proof.
  intros Httl. induction 1 as [|x l Hs IH Hx]; [constructor|].
  inversion Httl as [|? ? Ex Hl]; subst.
  constructor; [now apply IH|].
  rewrite Forall_forall in *. intros y Hy.
  specialize (Hx y Hy). specialize (Hl y Hy).
  unfold expiration_le in Hx. unfold insertion_le. lia.
Qed.

(** X11. When no two entries were inserted at the same clock value,
    [get_valid_data] returns the values in the order of their
    insertion: the result is the deque it leaves, read front to back,
    and its last element is what [get_most_recent] then returns. *)
Theorem get_valid_data_insertion_order (now : TimePoint)
    (c : ExpiringDataContainer T) :
  container_inv c ->
  StronglySorted insertion_lt (insertion_order c) ->
  fst (get_valid_data now c) =
  map data (filter (live now) (insertion_order c)) /\
  fst (get_valid_data now c) =
  map data (insertion_order (snd (get_valid_data now c))) /\
  match get_most_recent (snd (get_valid_data now c)) with
  | inl _ => fst (get_valid_data now c) = []
  | inr v => exists front, fst (get_valid_data now c) = front ++ [v]
  end.
Proof.
  intros Hinv Hlt.
  assert (Hvis : visited now c = filter (live now) (insertion_order c)).
  { apply (sorted_perm_eq expiration).
    - apply visited_sorted.
    - apply StronglySorted_filter.
      eapply insertion_lt_expiration_lt; [apply (inv_ttl Hinv)|exact Hlt].
    - rewrite visited_perm. apply Permutation_filter, (inv_sync Hinv). }
  assert (Hdq : insertion_order (snd (get_valid_data now c)) =
                filter (live now) (insertion_order c))
    by now apply remove_expired_deque.
  rewrite get_valid_data_visited, Hvis, Hdq.
  split; [reflexivity|]. split; [reflexivity|].
  unfold get_most_recent. rewrite Hdq.
  destruct (filter (live now) (insertion_order c)) as [|x l];
    [reflexivity|].
  destruct (back_split l x) as (front & ->).
  exists (map data front). now rewrite map_app.
Qed.

Lemma print_entries_entries (fuel : nat) :
  forall (q : PQ) (out : list output),
  print_entries fuel q out =
  out ++ flat_map (fun e => [OutText ", Insertion Time: ";
                             OutCount (insertion e);
                             OutText " ms"])
                  (drain_entries fuel q).
Proof.
  induction fuel as [|fuel IH]; intros q out; simpl.
  - now rewrite app_nil_r.
  - destruct (pq_empty q); [now rewrite app_nil_r|].
    destruct (pq_top q) as [x|]; [|now rewrite app_nil_r].
    rewrite IH. simpl. now rewrite <- app_assoc.
Qed.

(** X12. [print_state] evicts nothing: after the header line it prints the
    insertion time of every entry the queue holds, expired ones too,
    each once, by ascending expiration.  In a state that satisfies the
    invariant that is by ascending insertion time, as the header line
    says. *)
Theorem print_state_spec (c : ExpiringDataContainer T) :
  exists l : list (TimedData T),
    Permutation l (pq_elems (pq c)) /\
    StronglySorted expiration_le l /\
    (container_inv c -> StronglySorted insertion_le l) /\
    print_state c =
    [OutText "State of the data ordered by insertion times:"; OutEndl] ++
    flat_map (fun e => [OutText ", Insertion Time: ";
                        OutCount (insertion e);
                        OutText " ms"]) l.
Proof.
  exists (drain_entries (pq_size (pq c)) (pq c)).
  assert (P : Permutation (drain_entries (pq_size (pq c)) (pq c))
                          (pq_elems (pq c)))
    by (apply drain_entries_perm; now rewrite pq_size_spec).
  assert (Hs : StronglySorted expiration_le
                 (drain_entries (pq_size (pq c)) (pq c)))
    by (apply drain_entries_sorted; now rewrite pq_size_spec).
  split; [exact P|]. split; [exact Hs|]. split.
  - intros [Hsync _ Httl].
    apply expiration_sorted_insertion with (d := fixed_duration c);
      [|exact Hs].
    unfold in_sync in Hsync. now rewrite P, Hsync.
  - unfold print_state. apply print_entries_entries.
Qed.

End Order.

(** ** The two revisions side by side *)

Section Revisions.

Context {T : Type} `{PriorityQueue T}.

Lemma forget_deque_do_call (k : call T) (c : ExpiringDataContainer T) :
  forget_deque (do_call c k) = HeapOnly.do_call (forget_deque c) k.
Proof.
  now destruct k.
Qed.

Lemma forget_deque_run (ks : list (call T)) :
  forall c : ExpiringDataContainer T,
  forget_deque (run ks c) = HeapOnly.run ks (forget_deque c).
Proof.
  unfold run, HeapOnly.run.
  induction ks as [|k ks IH]; intros c; simpl; [reflexivity|].
  now rewrite IH, forget_deque_do_call.
Qed.

(** X13. Along every history, the revision that keeps only the queue and the
    one that also keeps the deque hold the same queue and answer
    [get_valid_data], [get_data_exceeding] and [is_less_than_all]
    alike. *)
Theorem heap_only_agrees (d : Duration) (ks : list (call T))
    (now time : TimePoint) :
  let c := run ks (new_container d) in
  let h := HeapOnly.run ks (HeapOnly.new_container d) in
  HeapOnly.pq h = pq c /\
  fst (HeapOnly.get_valid_data now h) = fst (get_valid_data now c) /\
  fst (HeapOnly.get_data_exceeding now time h) =
  fst (get_data_exceeding now time c) /\
  HeapOnly.is_less_than_all time h = is_less_than_all time c.
Proof.
  intros c h.
  assert (E : h = forget_deque c).
  { unfold h, c. now rewrite forget_deque_run. }
  rewrite E. repeat split.
Qed.

End Revisions.

(** ** The cleanup thread and the destructor *)

Section Shutdown.

Context {T : Type} `{PriorityQueue T}.

Lemma request_stop_inv (c : ExpiringDataContainer T) :
  container_inv c -> container_inv (request_stop c).
Proof.
  intros [Hsync Hs Httl]. now split.
Qed.

Lemma step_fixed_duration (ev : event T) (s : system T) :
  fixed_duration (container (step s ev)) = fixed_duration (container s).
Proof.
  destruct ev as [k|now|]; simpl; [now destruct k| |reflexivity].
  unfold cleanup_iteration. destruct (worker_running s); [|reflexivity].
  now destruct (stop_cleanup (container s)).
Qed.

Lemma step_inv (t : TimePoint) (ev : event T) (s : system T) :
  container_inv (container s) -> clock_bound t (container s) ->
  schedule_monotone t [ev] = true ->
  schedule_in_range (fixed_duration (container s)) [ev] = true ->
  exists t', container_inv (container (step s ev)) /\
             clock_bound t' (container (step s ev)) /\
             forall evs, schedule_monotone t (ev :: evs) =
                         schedule_monotone t' evs.
Proof.
  intros Hinv Hb Hm Hr. unfold schedule_in_range in Hr.
  destruct ev as [k|now|]; simpl in *.
  - rewrite andb_true_r in Hm, Hr. rewrite Hm.
    apply Z.leb_le in Hm.
    destruct (do_call_inv k Hinv Hb Hm Hr) as [Hinv' Hb'].
    exists (call_now k). split; [exact Hinv'|]. now split.
  - rewrite andb_true_r in Hm. rewrite Hm. apply Z.leb_le in Hm.
    exists now. unfold cleanup_iteration.
    assert (Hb' : clock_bound now (container s))
      by (eapply clock_bound_mono; eauto).
    destruct (worker_running s); [|split; [exact Hinv|now split]].
    destruct (stop_cleanup (container s)); simpl;
      [split; [exact Hinv|now split]|].
    split; [now apply remove_expired_inv|].
    split; [now apply remove_expired_bound|reflexivity].
  - exists t. split; [now apply request_stop_inv|]. now split.
Qed.

Lemma schedule_inv (evs : list (event T)) :
  forall (t : TimePoint) (s : system T),
  container_inv (container s) -> clock_bound t (container s) ->
  schedule_monotone t evs = true ->
  schedule_in_range (fixed_duration (container s)) evs = true ->
  container_inv (container (schedule evs s)).
Proof.
  unfold schedule.
  induction evs as [|ev evs IH]; intros t s Hinv Hb Hm Hr; [exact Hinv|].
  assert (Hm1 : schedule_monotone t [ev] = true).
  { destruct ev; simpl in *; [| |reflexivity];
      apply andb_true_iff in Hm; destruct Hm as [Hm _];
      now rewrite Hm. }
  assert (Hr1 : schedule_in_range (fixed_duration (container s)) [ev]
                = true /\
                schedule_in_range (fixed_duration (container s)) evs
                = true).
  { unfold schedule_in_range in *. destruct ev; simpl in *;
      [|now split..].
    apply andb_true_iff in Hr. destruct Hr as [Hk Hr].
    now rewrite Hk. }
  destruct Hr1 as [Hr1 Hr'].
  destruct (step_inv ev s Hinv Hb Hm1 Hr1) as (t' & Hinv' & Hb' & Hrest).
  simpl. apply (IH t'); [exact Hinv'|exact Hb'| |].
  - now rewrite <- Hrest.
  - now rewrite step_fixed_duration.
Qed.

(** X14. The invariant of the container holds in every state of every
    schedule of calls, wake-ups of the cleanup thread and the
    destructor's request to stop, as long as the clock values read
    never decrease in the order in which the events hold the mutex and
    no sum of an [insert] leaves the range of the 64-bit tick count. *)
Theorem schedule_invariant (d : Duration) (t0 : TimePoint)
    (evs : list (event T)) :
  schedule_monotone t0 evs = true ->
  schedule_in_range d evs = true ->
  container_inv (container (schedule evs (construct d))).
Proof.
  intros Hm Hr. apply (schedule_inv evs (t:=t0)); [| |exact Hm|exact Hr].
  - apply new_container_inv.
  - apply new_container_bound.
Qed.

Lemma do_call_stop (k : call T) (c : ExpiringDataContainer T) :
  stop_cleanup (do_call c k) = stop_cleanup c.
Proof.
  now destruct k.
Qed.

Lemma request_stop_stopped (c : ExpiringDataContainer T) :
  stop_cleanup c = true -> request_stop c = c.
Proof.
  destruct c as [q l d b]. simpl. now intros ->.
Qed.

Lemma step_stopped (ev : event T) (s : system T) :
  stop_cleanup (container s) = true ->
  stop_cleanup (container (step s ev)) = true /\
  container (step s ev) =
  run (calls_of [ev]) (container s) /\
  (worker_running s = false -> worker_running (step s ev) = false) /\
  (forall now, ev = EvWake now -> worker_running (step s ev) = false).
Proof.
  intros Hstop. destruct ev as [k|now|]; simpl.
  - rewrite do_call_stop.
    split; [exact Hstop|]. split; [reflexivity|].
    split; [easy|discriminate].
  - unfold cleanup_iteration. rewrite Hstop.
    destruct (worker_running s) eqn:W; simpl;
      (split; [exact Hstop|]; split; [reflexivity|]; split; auto).
  - rewrite (request_stop_stopped _ Hstop).
    split; [reflexivity|]. split; [reflexivity|].
    split; [easy|discriminate].
Qed.

Lemma schedule_stopped (evs : list (event T)) :
  forall s : system T,
  stop_cleanup (container s) = true ->
  container (schedule evs s) = run (calls_of evs) (container s) /\
  (worker_running s = false ->
   worker_running (schedule evs s) = false) /\
  ((exists now, In (EvWake now) evs) ->
   worker_running (schedule evs s) = false).
Proof.
  unfold schedule.
  induction evs as [|ev evs IH]; intros s Hstop.
  - simpl. split; [reflexivity|]. split; [easy|]. now intros (now & []).
  - destruct (step_stopped ev s Hstop) as (Hstop' & Hc & Hkeep & Hwake).
    destruct (IH (step s ev) Hstop') as (IHc & IHkeep & IHwake).
    change (fold_left step (ev :: evs) s)
      with (fold_left step evs (step s ev)).
    split; [|split].
    + rewrite IHc, Hc. now destruct ev.
    + intros W. apply IHkeep. now apply Hkeep.
    + intros (now & [->|Hin]).
      * apply IHkeep. now apply (Hwake now).
      * apply IHwake. now exists now.
Qed.

(** X15. Once the destructor has set [stop_cleanup], the cleanup thread
    evicts nothing any more: whatever the schedule, the container is
    changed by the calls of other threads alone, the flag stays set, and
    the thread has left its loop from its first wake-up on. *)
Theorem no_cleanup_after_destroy (evs : list (event T)) (s : system T) :
  container (schedule (EvDestroy :: evs) s) =
  run (calls_of evs) (request_stop (container s)) /\
  ((exists now, In (EvWake now) evs) ->
   worker_running (schedule (EvDestroy :: evs) s) = false).
Proof.
  change (schedule (EvDestroy :: evs) s)
    with (schedule evs (step s EvDestroy)).
  destruct (schedule_stopped evs (step s EvDestroy) eq_refl)
    as (Hc & _ & Hwake).
  split; [exact Hc|exact Hwake].
Qed.

End Shutdown.

(** * The further properties on concrete containers *)

Lemma sample_container_bound : clock_bound 6 sample_container.
Proof.
  repeat constructor; simpl; lia.
Qed.

Lemma TimedData_gt_strict_weak_witness :
  TimedData_gt (mkTimedData 33 6 16) (mkTimedData 22 3 13) = true /\
  TimedData_gt (mkTimedData 22 3 13) (mkTimedData 11 0 10) = true /\
  TimedData_gt (mkTimedData 33 6 16) (mkTimedData 11 0 10) = true.
Proof.
  split; [reflexivity|]. split; [reflexivity|].
  apply (proj1 (proj2 (@TimedData_gt_strict_weak Z))
           (mkTimedData 33 6 16) (mkTimedData 22 3 13)
           (mkTimedData 11 0 10)); reflexivity.
Defined.

Lemma cleanup_unobservable_witness :
  5 <= 12 /\
  get_valid_data 12 (cleanup_step 5 sample_container) =
  get_valid_data 12 sample_container /\
  get_data_exceeding 12 3 (cleanup_step 5 sample_container) =
  get_data_exceeding 12 3 sample_container.
Proof.
  split; [lia|].
  apply (@cleanup_unobservable Z _ 5 12 3 sample_container). lia.
Defined.

Lemma inserted_value_lives_witness :
  Forall (fun k => call_now k < wrap64 (7 + fixed_duration sample_container))
         [CallGetValidData 12; CallInsert 13 55] /\
  16 < wrap64 (7 + fixed_duration sample_container) /\
  6 < 7 /\
  In 44 (fst (get_valid_data 16
                (run [CallGetValidData 12; CallInsert 13 55]
                     (insert 7 44 sample_container)))) /\
  In 44 (fst (get_data_exceeding 16 6
                (run [CallGetValidData 12; CallInsert 13 55]
                     (insert 7 44 sample_container)))).
Proof.
  assert (Hks : Forall (fun k : call Z =>
                          call_now k <
                          wrap64 (7 + fixed_duration sample_container))
                       [CallGetValidData 12; CallInsert 13 55])
    by (repeat constructor).
  assert (Hnow : 16 < wrap64 (7 + fixed_duration sample_container))
    by reflexivity.
  split; [exact Hks|]. split; [exact Hnow|]. split; [lia|].
  destruct (@inserted_value_lives Z _ 7 16 6 44
              [CallGetValidData 12; CallInsert 13 55] sample_container
              Hks Hnow) as [Hvalid Hexceeding].
  split; [exact Hvalid|]. apply Hexceeding. lia.
Defined.

Lemma all_expired_empty_witness :
  6 + fixed_duration sample_container <= 16 /\
  fst (get_valid_data 16 sample_container) = [] /\
  insertion_order (snd (get_valid_data 16 sample_container)) = [].
Proof.
  split; [simpl; lia|].
  destruct (@all_expired_empty Z _ 6 16 sample_container
              sample_container_inv sample_container_bound)
    as (Hres & _ & Hdq & _); [simpl; lia|].
  split; [exact Hres|exact Hdq].
Defined.

Lemma entries_provenance_witness :
  In (mkTimedData 22 3 13) (pq_elems (pq sample_container)) /\
  (In (mkTimedData 22 3 13)
      (pq_elems (pq (new_container 10 : ZContainer))) \/
   exists now v, In (CallInsert now v) sample_history /\
                 mkTimedData 22 3 13 =
                 mkTimedData v now (wrap64 (now + 10))).
Proof.
  assert (Hin : In (mkTimedData 22 3 13) (pq_elems (pq sample_container)))
    by (right; left; reflexivity).
  split; [exact Hin|].
  apply (proj1 (@entries_provenance Z _ sample_history
                  (new_container 10) (mkTimedData 22 3 13))).
  exact Hin.
Defined.

Lemma is_less_than_all_front_witness :
  is_less_than_all (-1) sample_container = true /\
  is_less_than_all 0 sample_container = false.
Proof.
  split.
  - rewrite (is_less_than_all_front (-1) sample_container_inv).
    reflexivity.
  - rewrite (is_less_than_all_front 0 sample_container_inv).
    reflexivity.
Defined.

Lemma get_data_exceeding_subsequence_witness :
  0 <= 3 /\
  subsequence (fst (get_data_exceeding 5 3 sample_container))
              (fst (get_data_exceeding 5 0 sample_container)).
Proof.
  split; [lia|].
  apply (@get_data_exceeding_subsequence Z _ 5 0 3 sample_container).
  lia.
Defined.

Lemma get_valid_data_insertion_order_witness :
  StronglySorted insertion_lt (insertion_order sample_container) /\
  fst (get_valid_data 12 sample_container) =
  map data (insertion_order (snd (get_valid_data 12 sample_container))).
Proof.
  assert (Hlt : StronglySorted insertion_lt
                  (insertion_order sample_container))
    by (repeat constructor).
  split; [exact Hlt|].
  exact (proj1 (proj2 (@get_valid_data_insertion_order Z _ 12
                         sample_container sample_container_inv Hlt))).
Defined.

Lemma print_state_spec_witness :
  exists l : list (TimedData Z),
    Permutation l (pq_elems (pq sample_container)) /\
    StronglySorted insertion_le l /\
    print_state sample_container =
    [OutText "State of the data ordered by insertion times:"; OutEndl] ++
    flat_map (fun e => [OutText ", Insertion Time: ";
                        OutCount (insertion e);
                        OutText " ms"]) l.
Proof.
  destruct (print_state_spec sample_container) as (l & P & _ & Hins & E).
  exists l. split; [exact P|]. split; [|exact E].
  apply Hins. exact sample_container_inv.
Defined.

Lemma schedule_invariant_witness :
  schedule_monotone 0 sample_schedule = true /\
  schedule_in_range 10 sample_schedule = true /\
  container_inv (container (schedule sample_schedule fresh_system)).
Proof.
  split; [reflexivity|]. split; [reflexivity|].
  apply (@schedule_invariant Z (ListPQ.list_pq Z) 10 0 sample_schedule);
    reflexivity.
Defined.

Lemma no_cleanup_after_destroy_witness :
  (exists now, In (EvWake now) late_schedule) /\
  worker_running
    (schedule (EvDestroy :: late_schedule) fresh_system) = false.
Proof.
  assert (Hwake : exists now, In (EvWake (T:=Z) now) late_schedule)
    by (exists 20; left; reflexivity).
  split; [exact Hwake|].
  apply (proj2 (no_cleanup_after_destroy late_schedule fresh_system)).
  exact Hwake.
Defined.

Section MoreSamples.

Example sample_print_state :
  print_state sample_container =
  [OutText "State of the data ordered by insertion times:"; OutEndl;
   OutText ", Insertion Time: "; OutCount 0; OutText " ms";
   OutText ", Insertion Time: "; OutCount 3; OutText " ms";
   OutText ", Insertion Time: "; OutCount 6; OutText " ms"].
Proof.
  reflexivity.
Qed.

Example sample_schedule_end :
  worker_running (schedule sample_schedule fresh_system) = false /\
  stop_cleanup (container (schedule sample_schedule fresh_system))
  = true /\
  insertion_order (container (schedule sample_schedule fresh_system))
  = [mkTimedData 11 0 10; mkTimedData 22 6 16].
Proof.
  repeat split; reflexivity.
Qed.

Example sample_sweeps_compose :
  remove_expired 5 (remove_expired 12 sample_container) =
  remove_expired 12 sample_container /\
  insertion_order (remove_expired 12 sample_container) =
  [mkTimedData 22 3 13; mkTimedData 33 6 16].
Proof.
  split; reflexivity.
Qed.

End MoreSamples.
